(** * EasyCpp: the heterogeneous [List] container, the file-open helper
    and the [String] class

    A shallow embedding of [List/List.h] (class [easycpp::List]), of the
    function [easycpp::open] of the FileOperator header and of
    [String/String.h] (class [easycpp::String]), together with the
    properties of the specification that concern them and further
    properties read off the code.

    Conventions of the embedding:
    - [std::vector<X>] is [list X]; [v[i]] is the total lookup [v !!! i],
      [v.erase(v.begin() + i)] is [delete i v], [v.push_back(x)] is
      [v ++ [x]], [v.insert(v.begin() + i, x)] is [take i v ++ x :: drop i v];
      an access outside the vector, undefined in C++, reads a default value
      or changes nothing here, and the properties that depend on [types[i]]
      are stated for lists with one recorded type per element, on which no
      such access happens;
    - [std::any] is [option value]: [None] is the [any] that has no value,
      [Some w] holds the value [w], whose constructor is its dynamic type;
    - [const std::type_info*] is [type_info]; two such pointers are equal
      exactly when they denote the same type;
    - [size_t] indices are [nat] (no index arithmetic of the source can
      wrap: the only subtraction is [data.size() - 1] on a non-empty vector);
    - a [throw] is the outcome [Throw e]; a method that mutates the list
      returns the list after the call. *)

From Stdlib Require Import ZArith Ascii String.
From Stdlib Require Import Floats.SpecFloat DecimalString.
From stdpp Require Import base decidable option list strings.

Open Scope string_scope.
Open Scope list_scope.

(** ** The values and exceptions of the C++ code *)

(** [double]: IEEE 754 binary64 values in the standard library's
    specification format; [==] on them is [SFeqb] (a NaN differs from
    itself, the two zeros are equal). *)
Definition double := spec_float.

(** The types [T] at which the templates of [List] are instantiated:
    [typeid(T)].  [ti_other name] is any further type with an [operator==],
    identified by its name. *)
Inductive type_info : Type :=
| ti_int
| ti_double
| ti_string
| ti_other (name : string).

#[export] Instance type_info_eq_dec : EqDecision type_info.
Proof. solve_decision. Defined.

#[export] Instance type_info_inhabited : Inhabited type_info :=
  populate ti_int.

(** A value together with its static type.  An [int] is kept as the integer
    it denotes (the code does no arithmetic on stored values); a value of a
    further type is represented by the integer [repr] that encodes it. *)
Inductive value : Type :=
| v_int (n : Z)
| v_double (d : double)
| v_string (s : string)
| v_other (name : string) (repr : Z).

(** [typeid(T)] for the [T] of a [const T& value] argument. *)
Definition type_of (v : value) : type_info :=
  match v with
  | v_int _ => ti_int
  | v_double _ => ti_double
  | v_string _ => ti_string
  | v_other name _ => ti_other name
  end.

(** [a == b] for two values of one type [T]. *)
Definition op_eq (a b : value) : bool :=
  match a, b with
  | v_int n, v_int m => Z.eqb n m
  | v_double d, v_double e => SFeqb d e
  | v_string s, v_string t => String.eqb s t
  | v_other n r, v_other m q => String.eqb n m && Z.eqb r q
  | _, _ => false
  end.

(** [std::any] *)
Abbreviation any := (option value).

(** An argument [const T& value] of the templates [append<T>] and
    [insert<T>], given by the two things they compute from it:
    [typeid(T)] and [std::any(value)].  The two need not agree: for
    [T = std::any] the any is copied, not wrapped, so it holds what the
    argument holds (possibly nothing) under [typeid(std::any)]; for an array
    type [T] (a string literal) the decayed pointer is stored under the array
    type; and the stored object is a copy, which for some types does not
    compare equal to the original. *)
Record argument : Type := mkArg {
  arg_typeid : type_info;
  arg_any : any
}.

(** An argument of a type [T] that [std::any] stores as a [T] equal to the
    original, as it does for [int], [double] and [std::string]. *)
Definition by_value (v : value) : argument := mkArg (type_of v) (Some v).

(** [typeid(std::any)], and an argument of type [std::any]. *)
Definition ti_any : type_info := ti_other "std::any".

Definition by_any (a : any) : argument := mkArg ti_any a.

(** A string literal: its array type is recorded, the pointer it decays to
    is stored. *)
Definition by_literal (array_type : string) (pointer : Z) : argument :=
  mkArg (ti_other array_type) (Some (v_other "const char*" pointer)).

(** The exceptions thrown by the code, by class. *)
Inductive exception : Type :=
| out_of_range (what : string)
| invalid_argument (what : string)
| bad_any_cast
| FileNotExistError (msg : string)
| FilePermissionError (msg permission : string)
| FileWriteError (msg : string)
| FileUnknownError (msg : string).

Inductive exception_class : Type :=
| class_out_of_range
| class_invalid_argument
| class_bad_any_cast
| class_FileNotExistError
| class_FilePermissionError
| class_FileWriteError
| class_FileUnknownError.

#[export] Instance exception_class_eq_dec : EqDecision exception_class.
Proof. solve_decision. Defined.

(** The class a [catch] clause can select on. *)
Definition class_of (e : exception) : exception_class :=
  match e with
  | out_of_range _ => class_out_of_range
  | invalid_argument _ => class_invalid_argument
  | bad_any_cast => class_bad_any_cast
  | FileNotExistError _ => class_FileNotExistError
  | FilePermissionError _ _ => class_FilePermissionError
  | FileWriteError _ => class_FileWriteError
  | FileUnknownError _ => class_FileUnknownError
  end.

(** The result of a call that may throw. *)
Inductive outcome (A : Type) : Type :=
| Return (a : A)
| Throw (e : exception).
Arguments Return {A} a.
Arguments Throw {A} e.

(** ** The C++ standard library functions the code calls *)

Module std.

Definition has_value (a : any) : bool :=
  match a with Some _ => true | None => false end.

(** [std::any_cast<T>(&a)]: a pointer to the contained value when [a]
    holds a value of dynamic type exactly [T], the null pointer otherwise. *)
Definition any_cast_ptr (T : type_info) (a : any) : option value :=
  match a with
  | Some w => if decide (type_of w = T) then Some w else None
  | None => None
  end.

(** [std::any_cast<T>(a)] by value: throws when the cast by pointer is
    null. *)
Definition any_cast (T : type_info) (a : any) : outcome value :=
  match any_cast_ptr T a with
  | Some w => Return w
  | None => Throw bad_any_cast
  end.

(** [std::any_cast<int>(a)], [std::any_cast<double>(a)] and
    [std::any_cast<std::string>(a)], with the result at its own type. *)
Definition any_cast_int (a : any) : outcome Z :=
  match a with Some (v_int n) => Return n | _ => Throw bad_any_cast end.

Definition any_cast_double (a : any) : outcome double :=
  match a with Some (v_double d) => Return d | _ => Throw bad_any_cast end.

Definition any_cast_string (a : any) : outcome string :=
  match a with Some (v_string s) => Return s | _ => Throw bad_any_cast end.

(** [std::to_string] on an integer: its decimal rendering. *)
Definition to_string (n : Z) : string :=
  NilZero.string_of_int (Z.to_int n).

(** [std::find_if(v.begin(), v.end(), p)], as the distance from
    [v.begin()] of the iterator it returns ([None] for [v.end()]). *)
Definition find_if {A} (p : A -> bool) (v : list A) : option nat :=
  fst <$> list_find (fun x => p x = true) v.

(** [std::reverse(v.begin(), v.end())] *)
Definition reverse {A} (v : list A) : list A := list.reverse v.

End std.

(** ** [class List] of [List/List.h] *)

Module easycpp.

(** The two private members: the stored elements and, in a parallel
    vector, the type recorded for each of them. *)
Record List : Type := mkList {
  data : list any;
  types : list type_info
}.

(** [List()] *)
Definition List_new : List := mkList [] [].

Definition size (l : List) : nat := length (data l).

Definition empty (l : List) : bool := bool_decide (data l = []).

(** [append<T>(value)] *)
Definition append (value : argument) (l : List) : List :=
  mkList (data l ++ [arg_any value]) (types l ++ [arg_typeid value]).

(** The argument [const List& other] of [extend]: another list object, or
    the list [extend] is called on. *)
Inductive extend_argument : Type :=
| another (other : List)
| itself.

(** [extend(other)].  On the list itself the two calls of [vector::insert]
    insert a vector's own range into it, which is undefined (a reallocation
    can leave empty values under the copied discriminators): no list is
    given for that call. *)
Definition extend (other : extend_argument) (l : List) : option List :=
  match other with
  | another other =>
      Some (mkList (data l ++ data other) (types l ++ types other))
  | itself => None
  end.

(** [insert<T>(index, value)] *)
Definition insert (index : nat) (value : argument) (l : List) : List :=
  if decide (index <= length (data l)) then
    mkList (take index (data l) ++ arg_any value :: drop index (data l))
           (take index (types l) ++ arg_typeid value :: drop index (types l))
  else l.

(** The lambda passed to [find_if] by [remove<T>(value)]. *)
Definition remove_pred (value : value) (element : any) : bool :=
  match std.any_cast_ptr (type_of value) element with
  | Some w => op_eq w value
  | None => false
  end.

(** [remove<T>(value)] *)
Definition remove (value : value) (l : List) : List :=
  match std.find_if (remove_pred value) (data l) with
  | Some index => mkList (delete index (data l)) (delete index (types l))
  | None => l
  end.

(** [pop(index)]: the outcome and the list after the call. *)
Definition pop (index : option nat) (l : List) : outcome any * List :=
  let checked : outcome nat :=
    match index with
    | None =>
        if empty l then Throw (out_of_range "List is empty, cannot pop.")
        else Return (length (data l) - 1)
    | Some i => Return i
    end in
  match checked with
  | Throw e => (Throw e, l)
  | Return i =>
      if decide (i < length (data l)) then
        let value := data l !!! i in
        (Return value, mkList (delete i (data l)) (delete i (types l)))
      else (Throw (out_of_range "Index out of range"), l)
  end.

(** [clear()] *)
Definition clear (l : List) : List := mkList [] [].

(** The condition tested on slot [i] by the loops of [index] and [count]:
    [*types[i] == typeid(T) && any_cast<T>(&data[i]) &&
     *any_cast<T>(&data[i]) == value]. *)
Definition slot_matches (value : value) (l : List) (i : nat) : bool :=
  bool_decide (types l !!! i = type_of value)
  && match std.any_cast_ptr (type_of value) (data l !!! i) with
     | Some w => op_eq w value
     | None => false
     end.

(** The loop of [index<T>(value, start)]; [n] bounds the number of
    iterations left. *)
Fixpoint index_loop (value : value) (l : List) (n i : nat) : outcome nat :=
  match n with
  | 0 => Throw (invalid_argument "Value not found")
  | S n' =>
      if decide (i < length (data l)) then
        if slot_matches value l i then Return i
        else index_loop value l n' (S i)
      else Throw (invalid_argument "Value not found")
  end.

Definition index (value : value) (start : nat) (l : List) : outcome nat :=
  index_loop value l (length (data l) - start) start.

(** The loop of [count<T>(value)]. *)
Fixpoint count_loop (value : value) (l : List) (n i count : nat) : nat :=
  match n with
  | 0 => count
  | S n' =>
      if decide (i < length (data l)) then
        count_loop value l n' (S i)
          (if slot_matches value l i then S count else count)
      else count
  end.

Definition count (value : value) (l : List) : nat :=
  count_loop value l (length (data l)) 0 0.

(** [reverse()] *)
Definition reverse (l : List) : List :=
  mkList (std.reverse (data l)) (std.reverse (types l)).

(** [get<T>(index)] *)
Definition get (T : type_info) (index : nat) (l : List) : outcome value :=
  if bool_decide (index < length (data l))
     && bool_decide (types l !!! index = T)
  then std.any_cast T (data l !!! index)
  else Throw bad_any_cast.

(** [operator[](index)] followed by an assignment through the returned
    reference, for an index within bounds: only [data] changes. *)
Definition assign_at (index : nat) (a : any) (l : List) : List :=
  mkList (<[index := a]> (data l)) (types l).

Section Join.

(** What the text of a slot depends on besides the list itself:
    [std::to_string] on a [double], [type_info::name()], and the address
    [&data[i]] of slot [i]. *)
Variable to_string_double : double -> string.
Variable name : type_info -> string.
Variable address : nat -> Z.

(** The text that one iteration of [join] appends for slot [i] when
    [data[i].has_value()]. *)
Definition join_slot (l : List) (i : nat) : outcome string :=
  if decide (types l !!! i = ti_int) then
    match std.any_cast_int (data l !!! i) with
    | Return n => Return (std.to_string n)
    | Throw e => Throw e
    end
  else if decide (types l !!! i = ti_double) then
    match std.any_cast_double (data l !!! i) with
    | Return d => Return (to_string_double d)
    | Throw e => Throw e
    end
  else if decide (types l !!! i = ti_string) then
    std.any_cast_string (data l !!! i)
  else
    Return ("(" +:+ name (types l !!! i) +:+ " at "
            +:+ std.to_string (address i) +:+ ")").

(** The loop of [join(separator)]; [result] is the text built so far. *)
Fixpoint join_loop (separator : string) (l : List) (n i : nat)
    (result : string) : outcome string :=
  match n with
  | 0 => Return result
  | S n' =>
      if decide (i < length (data l)) then
        let result := if decide (0 < i) then result +:+ separator
                      else result in
        if std.has_value (data l !!! i) then
          match join_slot l i with
          | Return text => join_loop separator l n' (S i) (result +:+ text)
          | Throw e => Throw e
          end
        else join_loop separator l n' (S i) ""
      else Return result
  end.

Definition join (separator : string) (l : List) : outcome string :=
  join_loop separator l (length (data l)) 0 "".

End Join.

Section Output.

(** What [operator<<] writes depends on the stream: how it formats an
    [int], a [double] and a pointer ([show_pointer i] is the text for
    [&list.data[i]]).  A text is written as it is: the stream has no field
    width set. *)
Variable show_int : Z -> string.
Variable show_double : double -> string.
Variable name : type_info -> string.
Variable show_pointer : nat -> string.

(** The text that one iteration of [operator<<] writes for slot [i] when
    [list.data[i].has_value()]. *)
Definition output_slot (l : List) (i : nat) : outcome string :=
  if decide (types l !!! i = ti_int) then
    match std.any_cast_int (data l !!! i) with
    | Return n => Return (show_int n)
    | Throw e => Throw e
    end
  else if decide (types l !!! i = ti_double) then
    match std.any_cast_double (data l !!! i) with
    | Return d => Return (show_double d)
    | Throw e => Throw e
    end
  else if decide (types l !!! i = ti_string) then
    std.any_cast_string (data l !!! i)
  else
    Return ("(" +:+ name (types l !!! i) +:+ " at "
            +:+ show_pointer i +:+ ")").

(** The loop of [operator<<]; [os] is what the stream has received so far.
    A cast that throws leaves the stream with what was written before. *)
Fixpoint output_loop (l : List) (n i : nat) (os : string)
    : outcome unit * string :=
  match n with
  | 0 => (Return tt, os)
  | S n' =>
      if decide (i < length (data l)) then
        let os := if decide (0 < i) then os +:+ ", " else os in
        if std.has_value (data l !!! i) then
          match output_slot l i with
          | Return text => output_loop l n' (S i) (os +:+ text)
          | Throw e => (Throw e, os)
          end
        else output_loop l n' (S i) (os +:+ "")
      else (Return tt, os)
  end.

(** [os << list] *)
Definition output (os : string) (l : List) : outcome unit * string :=
  match output_loop l (length (data l)) 0 (os +:+ "[") with
  | (Return _, os') => (Return tt, os' +:+ "]")
  | (Throw e, os') => (Throw e, os')
  end.

End Output.

End easycpp.

(** ** [easycpp::open] of the FileOperator header *)

Module FileOperator.

Definition WRITE : string := "w".
Definition READ : string := "r".
Definition APPEND : string := "a".
Definition WRITE_E : string := "w+".
Definition READ_E : string := "r+".
Definition APPEND_E : string := "a+".
Definition FILE_NOT_PERMISSION : string := "have permission".

Definition F_OK : Z := 0.
Definition X_OK : Z := 1.
Definition W_OK : Z := 2.
Definition R_OK : Z := 4.

(** [strcmp]: zero exactly on equal strings, otherwise the sign of the
    first difference. *)
Definition strcmp (a b : string) : Z :=
  match String.compare a b with
  | Eq => 0
  | Lt => -1
  | Gt => 1
  end.

Section Native.

(** The operating system: the state of the file system, the two native
    calls the code makes on it, and the type of native handles.
    [access] returns 0 when the file has the permissions asked for;
    [fopen_s] returns its error code (0 on success), the handle it
    stored and the file system after the call. *)
Variable world : Type.
Variable FILE : Type.
Variable access : world -> string -> Z -> Z.
Variable fopen_s : world -> string -> string -> Z * FILE * world.

(** [class File] *)
Record File : Type := mkFile {
  file : FILE;
  filename : string
}.

(** The native calls made so far are recorded next to the file system. *)
Inductive native_call : Type :=
| call_access (filename : string) (mode : Z)
| call_fopen_s (filename method : string).

Definition state : Type := world * list native_call.

(** Computations that make native calls and may throw. *)
Definition M (A : Type) : Type := state -> outcome A * state.

Definition ret {A} (a : A) : M A := fun s => (Return a, s).

Definition throw {A} (e : exception) : M A := fun s => (Throw e, s).

Definition bind {A B} (c : M A) (k : A -> M B) : M B :=
  fun s =>
    match c s with
    | (Return a, s') => k a s'
    | (Throw e, s') => (Throw e, s')
    end.

#[local] Instance M_ret : MRet M := @ret.
#[local] Instance M_bind : MBind M := fun A B k c => bind c k.

Definition native_access (filename : string) (mode : Z) : M Z :=
  fun s =>
    (Return (access s.1 filename mode),
     (s.1, s.2 ++ [call_access filename mode])).

Definition native_fopen_s (filename method : string) : M (Z * FILE) :=
  fun s =>
    let r := fopen_s s.1 filename method in
    (Return (r.1.1, r.1.2),
     (r.2, s.2 ++ [call_fopen_s filename method])).

Definition is_exist (filename : string) : M bool :=
  r ← native_access filename F_OK; ret (r =? 0)%Z.

Definition is_readable (filename : string) : M bool :=
  r ← native_access filename R_OK; ret (r =? 0)%Z.

Definition is_writable (filename : string) : M bool :=
  r ← native_access filename W_OK; ret (r =? 0)%Z.

Definition is_executable (filename : string) : M bool :=
  r ← native_access filename X_OK; ret (r =? 0)%Z.

Definition check_permission (filename : string) : M bool :=
  r ← native_access filename (Z.lor R_OK W_OK); ret (r =? 0)%Z.

(** [open(filename, method)] *)
Definition open (filename method : string) : M File :=
  (if (strcmp method READ =? 0)%Z || (strcmp method READ_E =? 0)%Z then
     e ← is_exist filename;
     (if negb e then throw (FileNotExistError filename) else ret tt);;
     p ← check_permission filename;
     if negb p
     then throw (FilePermissionError filename FILE_NOT_PERMISSION)
     else ret tt
   else ret tt);;
  r ← native_fopen_s filename method;
  if negb (r.1 =? 0)%Z then throw (FileUnknownError filename)
  else ret (mkFile r.2 filename).

(** The native open call was made at some point of a run. *)
Definition opened (calls : list native_call) : bool :=
  existsb (fun c => match c with call_fopen_s _ _ => true | _ => false end)
          calls.

End Native.

(** A file system in which every file exists with all permissions and
    every native open succeeds with handle 3. *)
Definition permissive_access (w : unit) (name : string) (mode : Z) : Z := 0%Z.

Definition permissive_fopen_s (w : unit) (name method : string)
    : Z * nat * unit :=
  (0%Z, 3, tt).

(** A file system for the scenarios: "missing.txt" does not exist,
    "locked.txt" exists without read and write permission, and no file can
    be opened. *)
Definition scenario_access (w : unit) (name : string) (mode : Z) : Z :=
  if String.eqb name "missing.txt" then (-1)%Z
  else if String.eqb name "locked.txt" && negb (mode =? 0)%Z then (-1)%Z
  else 0%Z.

Definition scenario_fopen_s (w : unit) (name method : string)
    : Z * nat * unit :=
  (13%Z, 0, tt).

End FileOperator.

(** ** [class String] of [String/String.h] *)

(** The C library functions the class calls.  A C string is represented by
    the characters before its terminator, none of which is the NUL
    character; a pointer into a C string is an offset from its start. *)
Module libc.

#[export] Instance ascii_inhabited : Inhabited ascii := populate zero.

Definition strlen (s : list ascii) : nat := length s.

(** [strcmp]: zero exactly on equal strings, otherwise the sign of the
    difference of the first two characters that differ, as unsigned
    characters; a string that ends first is the smaller one. *)
Fixpoint strcmp (a b : list ascii) : Z :=
  match a, b with
  | [], [] => 0
  | [], _ :: _ => -1
  | _ :: _, [] => 1
  | x :: a', y :: b' =>
      if decide (x = y) then strcmp a' b'
      else if (N_of_ascii x <? N_of_ascii y)%N then -1 else 1
  end.

(** [strncmp]: [strcmp] on at most [n] characters of each string. *)
Definition strncmp (a b : list ascii) (n : nat) : Z :=
  strcmp (take n a) (take n b).

(** [strstr]: the offset of the first occurrence of [needle] in [hay], or
    the null pointer. *)
Fixpoint strstr (hay needle : list ascii) : option nat :=
  if decide (needle `prefix_of` hay) then Some 0
  else match hay with
       | [] => None
       | _ :: hay' => S <$> strstr hay' needle
       end.

(** [toupper] and [tolower] in the "C" locale: only the 26 letters of ASCII
    change. *)
Definition toupper (c : ascii) : ascii :=
  if (97 <=? N_of_ascii c)%N && (N_of_ascii c <=? 122)%N
  then ascii_of_N (N_of_ascii c - 32)
  else c.

Definition tolower (c : ascii) : ascii :=
  if (65 <=? N_of_ascii c)%N && (N_of_ascii c <=? 90)%N
  then ascii_of_N (N_of_ascii c + 32)
  else c.

(** The conversion of an integer to [int] (32 bits, two's complement). *)
Definition to_int (z : Z) : Z :=
  ((z + 2 ^ 31) mod 2 ^ 32 - 2 ^ 31)%Z.

End libc.

Module easycpp_String.
Import libc.

(** The two private members.  [data] is [None] for the null pointer (the
    default constructor), otherwise the C string its buffer of [length + 1]
    characters holds.  A method that reads through a null pointer, or that
    copies a C string longer than the buffer allocated for it, has undefined
    behaviour: its result is [None]. *)
Record String_t : Type := mkString {
  data : option (list ascii);
  length : nat
}.

(** [String()] *)
Definition String_default : String_t := mkString None 0.

(** [String(const char* str)] *)
Definition String_of (str : option (list ascii)) : String_t :=
  match str with
  | None => mkString (Some []) 0
  | Some c => mkString (Some c) (libc.strlen c)
  end.

(** [String(const String& other)] *)
Definition copy (other : String_t) : option String_t :=
  c ← data other;
  if decide (libc.strlen c <= length other)
  then Some (mkString (Some c) (length other))
  else None.

(** [len()] *)
Definition len (s : String_t) : nat := length s.

(** The loops of [upper()] and [lower()] on the copy's buffer: a write at
    an index past the terminator does not change the C string. *)
Fixpoint convert_loop (convert : ascii -> ascii) (length n i : nat)
    (buffer : list ascii) : list ascii :=
  match n with
  | 0 => buffer
  | S n' =>
      if decide (i < length) then
        convert_loop convert length n' (S i)
          (<[i := convert (buffer !!! i)]> buffer)
      else buffer
  end.

(** [upper()] *)
Definition upper (s : String_t) : option String_t :=
  result ← copy s;
  c ← data result;
  Some (mkString
          (Some (convert_loop libc.toupper (length s) (length s) 0 c))
          (length result)).

(** [lower()] *)
Definition lower (s : String_t) : option String_t :=
  result ← copy s;
  c ← data result;
  Some (mkString
          (Some (convert_loop libc.tolower (length s) (length s) 0 c))
          (length result)).

(** [endswith(suffix)] *)
Definition endswith (suffix s : String_t) : option bool :=
  if decide (length s < length suffix) then Some false
  else
    c ← data s;
    sc ← data suffix;
    Some (libc.strcmp (drop (length s - length suffix) c) sc =? 0)%Z.

(** [startswith(prefix)] *)
Definition startswith (prefix s : String_t) : option bool :=
  if decide (length s < length prefix) then Some false
  else
    c ← data s;
    pc ← data prefix;
    Some (libc.strncmp c pc (length prefix) =? 0)%Z.

(** [find(sub)] *)
Definition find (sub s : String_t) : option Z :=
  c ← data s;
  sc ← data sub;
  match libc.strstr c sc with
  | None => Some (-1)%Z
  | Some pos => Some (libc.to_int (Z.of_nat pos))
  end.

(** [operator+(const String& other)] *)
Definition concat (other s : String_t) : option String_t :=
  let newLength := length s + length other in
  c ← data s;
  oc ← data other;
  if decide (libc.strlen c + libc.strlen oc <= newLength)
  then Some (String_of (Some (c ++ oc)))
  else None.

(** [operator+(const char* other)] *)
Definition concat_chars (other : option (list ascii)) (s : String_t)
    : option String_t :=
  oc ← other;
  let newLength := length s + libc.strlen oc in
  c ← data s;
  if decide (libc.strlen c + libc.strlen oc <= newLength)
  then Some (String_of (Some (c ++ oc)))
  else None.

(** The invariant of the objects made by [String(const char* str)]: the buffer
    is there, [length] is the length of the C string in it, and that C
    string has no NUL character inside. *)
Definition wf (s : String_t) : Prop :=
  exists c, data s = Some c /\ length s = libc.strlen c /\
            Forall (fun x => x <> zero) c.

(** The C string of a well-formed object. *)
Definition chars (s : String_t) : list ascii := default [] (data s).

(** [String("hello")], [String("he")], [String("llo")] and
    [String("Hello")]. *)
Definition hello : String_t := String_of (Some (list_ascii_of_string "hello")).
Definition he : String_t := String_of (Some (list_ascii_of_string "he")).
Definition llo : String_t := String_of (Some (list_ascii_of_string "llo")).
Definition Hello : String_t := String_of (Some (list_ascii_of_string "Hello")).

End easycpp_String.

(** ** Vocabulary of the specification *)

Module List_spec.
Import easycpp.

(** The invariant of the data model: one recorded type per element. *)
Definition lockstep (l : List) : Prop :=
  length (data l) = length (types l).

(** A slot is a value paired with its discriminator; the slots of a list
    are its two vectors read side by side. *)
Abbreviation slot := (any * type_info)%type.

Definition slots (l : List) : list slot := zip (data l) (types l).

(** The operations that change a list. *)
Inductive operation : Type :=
| op_append (value : argument)
| op_extend (other : extend_argument)
| op_insert (index : nat) (value : argument)
| op_remove (value : value)
| op_pop (index : option nat)
| op_clear
| op_reverse.

(** The list left by an operation (for [pop], whether it returns or
    throws); none where the operation is undefined. *)
Definition run (o : operation) (l : List) : option List :=
  match o with
  | op_append value => Some (append value l)
  | op_extend other => extend other l
  | op_insert index value => Some (insert index value l)
  | op_remove value => Some (remove value l)
  | op_pop index => Some (pop index l).2
  | op_clear => Some (clear l)
  | op_reverse => Some (reverse l)
  end.

(** Every operation but the extension of a list with itself. *)
Definition not_self_extend (o : operation) : Prop :=
  match o with
  | op_extend itself => False
  | _ => True
  end.

(** A list passed as an argument satisfies the invariant as well. *)
Definition operand_lockstep (o : operation) : Prop :=
  match o with
  | op_extend (another other) => lockstep other
  | _ => True
  end.

(** What each operation does to the sequence of slots, stated on pairs:
    a slot is added, dropped or moved as a whole. *)
Definition on_slots (o : operation) (s : list slot) : list slot :=
  match o with
  | op_append value => s ++ [(arg_any value, arg_typeid value)]
  | op_extend (another other) => s ++ slots other
  | op_extend itself => s ++ s
  | op_insert index value =>
      if decide (index <= length s)
      then take index s ++ (arg_any value, arg_typeid value) :: drop index s
      else s
  | op_remove value =>
      match std.find_if (fun p : slot => remove_pred value p.1) s with
      | Some index => delete index s
      | None => s
      end
  | op_pop None => delete (length s - 1) s
  | op_pop (Some index) => delete index s
  | op_clear => []
  | op_reverse => list.reverse s
  end.

(** Type-qualified comparison: a slot matches a searched value of type
    [T] when its recorded discriminator is exactly [T] and it stores a
    value of type [T] equal to the searched one. *)
Definition qualified_match (value : value) (p : slot) : Prop :=
  p.2 = type_of value /\
  match p.1 with
  | Some w => type_of w = type_of value /\ op_eq w value = true
  | None => False
  end.

(** Comparison on the stored value alone: the slot stores a value of
    dynamic type [T] equal to the searched one, whatever its recorded
    discriminator. *)
Definition dynamic_match (value : value) (a : any) : Prop :=
  match a with
  | Some w => type_of w = type_of value /\ op_eq w value = true
  | None => False
  end.

#[export] Instance dynamic_match_dec value a :
  Decision (dynamic_match value a).
Proof. destruct a; simpl; apply _. Defined.

#[export] Instance qualified_match_dec value p :
  Decision (qualified_match value p).
Proof. unfold qualified_match. destruct p as [[w|] t]; simpl; apply _. Defined.

(** The list of the specification's scenario:
    [[int 5, text "five", float 5.0]]. *)
Definition five_point_zero : double :=
  S754_finite false 5629499534213120 (-50).

Definition scenario : List :=
  mkList [Some (v_int 5); Some (v_string "five");
          Some (v_double five_point_zero)]
         [ti_int; ti_string; ti_double].

(** A slot that holds a value and is recorded as [int], [double] or
    [std::string] holds a value of that type. *)
Definition slot_well_typed (p : slot) : Prop :=
  match p.1 with
  | None => True
  | Some w =>
      p.2 = ti_int \/ p.2 = ti_double \/ p.2 = ti_string ->
      type_of w = p.2
  end.

Definition well_typed (l : List) : Prop := Forall slot_well_typed (slots l).

Section Text.
Variable to_string_double : double -> string.
Variable name : type_info -> string.
Variable address : nat -> Z.

(** The text of slot [i] in the result of [join]. *)
Definition slot_text (l : List) (i : nat) : string :=
  match join_slot to_string_double name address l i with
  | Return text => text
  | Throw _ => ""
  end.

(** The texts of the [n] slots from [i] on, each after a separator. *)
Definition joined_from (separator : string) (l : List) (i n : nat)
    : string :=
  foldl (fun result j => (result +:+ separator) +:+ slot_text l j)
        "" (seq i n).

End Text.

Section Shown.
Variable show_int : Z -> string.
Variable show_double : double -> string.
Variable name : type_info -> string.
Variable show_pointer : nat -> string.

(** The text of slot [i] in the output of [operator<<]: nothing for an
    empty slot. *)
Definition shown_text (l : List) (i : nat) : string :=
  if std.has_value (data l !!! i) then
    match output_slot show_int show_double name show_pointer l i with
    | Return text => text
    | Throw _ => ""
    end
  else "".

End Shown.

(** A slot is consistent when the value it stores, if any, has the recorded
    type as its dynamic type.  An argument of [append] or [insert] that is
    stored as a value of its own type gives such a slot; an argument of type
    [std::any], a string literal, or an assignment through [operator[]] need
    not. *)
Definition slot_consistent (p : slot) : Prop :=
  match p.1 with
  | Some w => type_of w = p.2
  | None => True
  end.

Definition consistent (l : List) : Prop := Forall slot_consistent (slots l).

(** No slot is empty. *)
Definition no_empty_slot (l : List) : Prop :=
  Forall (fun a : any => a <> None) (data l).

(** A typed list has one recorded type per value, every slot is consistent
    and none is empty. *)
Definition typed (l : List) : Prop :=
  lockstep l /\ consistent l /\ no_empty_slot l.

(** An argument that is stored as a value whose dynamic type is the
    recorded type. *)
Definition argument_typed (x : argument) : Prop :=
  slot_consistent (arg_any x, arg_typeid x) /\ arg_any x <> None.

(** The operands of an operation are typed: what [append] and [insert]
    store, and the list (another one) that [extend] appends. *)
Definition operand_typed (o : operation) : Prop :=
  match o with
  | op_append value => argument_typed value
  | op_insert _ value => argument_typed value
  | op_extend (another other) => typed other
  | op_extend itself => False
  | _ => True
  end.

(** A sequence of operations, run in order as long as they are defined. *)
Definition run_all (os : list operation) (l : List) : option List :=
  foldl (fun result o => result ≫= run o) (Some l) os.

End List_spec.

(** ** Facts about vectors read side by side *)

Section Zip.
Context {A B : Type}.
Implicit Types (a : list A) (b : list B).

Lemma zip_delete a b i : zip (delete i a) (delete i b) = delete i (zip a b).
Proof.
  revert b i. induction a as [|x a IH]; intros [|y b] [|i]; simpl; try done.
  - by destruct a.
  - by rewrite IH.
Qed.

Lemma zip_reverse a b :
  length a = length b ->
  zip (list.reverse a) (list.reverse b) = list.reverse (zip a b).
Proof.
  revert b. induction a as [|x a IH]; intros [|y b] Hlen; simpl in *;
    try done.
  rewrite !reverse_cons, zip_with_app by (rewrite !length_reverse; lia).
  rewrite IH by lia. done.
Qed.

Lemma zip_insert_at a b i x y :
  length a = length b ->
  zip (take i a ++ x :: drop i a) (take i b ++ y :: drop i b)
  = take i (zip a b) ++ (x, y) :: drop i (zip a b).
Proof.
  intros Hlen.
  rewrite zip_with_app by (rewrite !length_take; lia).
  simpl. by rewrite zip_with_take, zip_with_drop.
Qed.

Lemma find_if_zip (p : A -> bool) a b :
  length a = length b ->
  std.find_if (fun q : A * B => p q.1) (zip a b) = std.find_if p a.
Proof.
  intros Hlen. unfold std.find_if.
  rewrite <- (fst_zip a b) at 2 by lia.
  rewrite list_find_fmap. destruct (list_find _ (zip a b)) as [[i q]|]; done.
Qed.

Lemma lookup_zip_Some a b i x y :
  zip a b !! i = Some (x, y) <-> a !! i = Some x /\ b !! i = Some y.
Proof.
  split.
  - intros H. apply lookup_zip_with_Some in H as (x' & y' & [= <- <-] & ? & ?).
    done.
  - intros [? ?]. apply lookup_zip_with_Some. by exists x, y.
Qed.

End Zip.

Section Erase.
Context {A : Type}.
Implicit Types (v : list A).

Lemma delete_out_of_range v i : length v <= i -> delete i v = v.
Proof.
  revert i. induction v as [|x v IH]; intros [|i] Hi; simpl in *;
    try done; try lia.
  f_equal. apply IH. lia.
Qed.

Lemma length_delete_lt v i : i < length v -> length (delete i v) = length v - 1.
Proof. intros Hi. apply length_delete, lookup_lt_is_Some_2, Hi. Qed.

Lemma filter_delete_unmatched (P : A -> Prop) `{!forall x, Decision (P x)}
      v i x :
  v !! i = Some x -> ~ P x -> filter P (delete i v) = filter P v.
Proof.
  revert i. induction v as [|y v IH]; intros [|i] Hx Hn; simpl in *;
    try done.
  - injection Hx as ->. by rewrite filter_cons, decide_False.
  - rewrite !filter_cons, (IH i Hx Hn). done.
Qed.

Lemma find_if_Some (p : A -> bool) v i :
  std.find_if p v = Some i <->
  exists x, v !! i = Some x /\ p x = true /\
            forall j y, v !! j = Some y -> j < i -> p y <> true.
Proof.
  unfold std.find_if. split.
  - destruct (list_find _ v) as [[i' x]|] eqn:Hf; [|done].
    intros [= <-]. exists x. apply list_find_Some in Hf. exact Hf.
  - intros (x & Hx).
    apply (list_find_Some (fun x => p x = true)) in Hx. by rewrite Hx.
Qed.

Lemma filter_delete_matched (P : A -> Prop) `{!forall x, Decision (P x)}
      v i x :
  v !! i = Some x -> P x ->
  S (length (filter P (delete i v))) = length (filter P v).
Proof.
  revert i. induction v as [|y v IH]; intros [|i] Hx Hp; simpl in *;
    try done.
  - injection Hx as ->. by rewrite filter_cons, decide_True.
  - rewrite !filter_cons. destruct (decide (P y)); simpl;
      by rewrite (IH i Hx Hp).
Qed.

Lemma find_if_None (p : A -> bool) v :
  std.find_if p v = None <-> forall j y, v !! j = Some y -> p y <> true.
Proof.
  unfold std.find_if. rewrite fmap_None, list_find_None, Forall_lookup. done.
Qed.

End Erase.

Lemma length_delete_lockstep {A B} (v : list A) (w : list B) i :
  length v = length w -> length (delete i v) = length (delete i w).
Proof.
  intros Hlen. destruct (decide (i < length v)) as [Hi|Hi].
  - rewrite !length_delete_lt; lia.
  - rewrite !delete_out_of_range; lia.
Qed.

(** ** Properties of [List] *)

Module List_proofs.
Import easycpp List_spec.

Lemma length_slots l : lockstep l -> length (slots l) = length (data l).
Proof. intros Hl. apply length_zip_with_l_eq, Hl. Qed.

(** *** Each operation on the two vectors, read as one on the slots *)

Lemma append_slots v l :
  lockstep l ->
  lockstep (append v l) /\
  slots (append v l) = on_slots (op_append v) (slots l).
Proof.
  unfold lockstep, slots. intros Hl. simpl. split.
  - rewrite !length_app. simpl. lia.
  - by rewrite zip_with_app.
Qed.

Lemma extend_slots other l :
  lockstep l -> lockstep other ->
  exists l',
    extend (another other) l = Some l' /\ lockstep l' /\
    slots l' = on_slots (op_extend (another other)) (slots l).
Proof.
  unfold lockstep, slots. intros Hl Ho. eexists. split; [done|].
  simpl. split.
  - rewrite !length_app. lia.
  - by rewrite zip_with_app.
Qed.

Lemma insert_slots i v l :
  lockstep l ->
  lockstep (insert i v l) /\
  slots (insert i v l) = on_slots (op_insert i v) (slots l).
Proof.
  intros Hl. simpl. rewrite (length_slots l Hl).
  unfold lockstep, slots, insert in *.
  destruct (decide (i <= length (data l))) as [Hi|Hi]; [|done].
  split; simpl.
  - rewrite !length_app; simpl. rewrite !length_take, !length_drop. lia.
  - by apply zip_insert_at.
Qed.

Lemma remove_slots v l :
  lockstep l ->
  lockstep (remove v l) /\
  slots (remove v l) = on_slots (op_remove v) (slots l).
Proof.
  unfold lockstep, slots, remove. intros Hl. simpl.
  rewrite (find_if_zip (remove_pred v) (data l) (types l) Hl).
  destruct (std.find_if (remove_pred v) (data l)) as [i|]; [|done].
  split; simpl.
  - by apply length_delete_lockstep.
  - apply zip_delete.
Qed.

Lemma pop_slots index l :
  lockstep l ->
  lockstep (pop index l).2 /\
  slots (pop index l).2 = on_slots (op_pop index) (slots l).
Proof.
  intros Hl. pose proof (length_slots l Hl) as Hs.
  unfold lockstep, slots, pop in *. destruct index as [i|]; simpl.
  - (* pop(index) *)
    destruct (decide (i < length (data l))) as [Hi|Hi]; simpl.
    + split; [by apply length_delete_lockstep | apply zip_delete].
    + split; [done|]. rewrite delete_out_of_range; [done|lia].
  - (* pop() *)
    unfold empty. case_bool_decide as He; simpl.
    + split; [done|]. by rewrite He.
    + destruct (decide (length (data l) - 1 < length (data l))) as [Hi|Hi];
        simpl.
      * split; [by apply length_delete_lockstep|].
        rewrite Hs. apply zip_delete.
      * destruct (data l); [done|simpl in Hi; lia].
Qed.

Lemma reverse_slots l :
  lockstep l ->
  lockstep (reverse l) /\
  slots (reverse l) = on_slots op_reverse (slots l).
Proof.
  unfold lockstep, slots, reverse, std.reverse. intros Hl. simpl. split.
  - rewrite !length_reverse. lia.
  - by apply zip_reverse.
Qed.




(** C9.  Calling [reverse()] twice returns the list to its original
    state: the values and the discriminators are both back in their
    original order. *)
Theorem reverse_twice (l : List) : reverse (reverse l) = l.
Proof.
  destruct l as [d t]. unfold reverse, std.reverse. simpl.
  by rewrite !list.reverse_involutive.
Qed.

(** C3, as stated, fails: the two failures of [pop] on an empty list are
    exceptions of one and the same class, so they are not different error
    kinds. *)
Lemma pop_empty_one_class :
  ~ (exists e1 e2 : exception,
       (pop None List_new).1 = Throw e1 /\
       (pop (Some 0) List_new).1 = Throw e2 /\
       class_of e1 <> class_of e2).
Proof.
  intros (e1 & e2 & H1 & H2 & Hne). simpl in H1, H2.
  injection H1 as <-. injection H2 as <-. by apply Hne.
Qed.

(** C3, amended.  [pop()] with no index on an empty list throws
    [std::out_of_range] with the message "List is empty, cannot pop.";
    [pop(i)] on an empty list (so [pop(0)]) throws [std::out_of_range] with
    the message "Index out of range"; the list is unchanged in both cases.
    The two failures have the same class and differ in their message. *)
Theorem pop_empty_errors :
  pop None List_new
    = (Throw (out_of_range "List is empty, cannot pop."), List_new) /\
  (forall i : nat,
     pop (Some i) List_new
       = (Throw (out_of_range "Index out of range"), List_new)) /\
  class_of (out_of_range "List is empty, cannot pop.")
    = class_of (out_of_range "Index out of range") /\
  out_of_range "List is empty, cannot pop."
    <> out_of_range "Index out of range".
Proof.
  split; [done|]. split; [|split; [done|discriminate]].
  intros i. unfold pop. simpl. destruct (decide (i < 0)); [lia|done].
Qed.

(** C6, as stated, fails: [get<T>] with an index out of bounds and
    [get<T>] on a slot recorded with another type throw the same
    exception, which is not of two different kinds. *)
Lemma get_failures_one_class :
  ~ (exists e1 e2 : exception,
       get ti_int 0 (mkList [Some (v_string "five")] [ti_string])
         = Throw e1 /\
       get ti_int 1 (mkList [Some (v_string "five")] [ti_string])
         = Throw e2 /\
       class_of e1 <> class_of e2).
Proof.
  intros (e1 & e2 & H1 & H2 & Hne). vm_compute in H1, H2.
  injection H1 as <-. injection H2 as <-. by apply Hne.
Qed.

(** C6, amended.  [get<T>(index)] throws [std::bad_any_cast] both when
    the index is out of bounds and when the index is within bounds but the
    slot's recorded discriminator is not [T]: the two failures are the same
    exception and cannot be told apart. *)
Theorem get_failures (T : type_info) (index : nat) (l : List) :
  lockstep l ->
  length (data l) <= index \/
    (index < length (data l) /\ types l !! index <> Some T) ->
  get T index l = Throw bad_any_cast.
Proof.
  intros Hl [Hout|[Hin Hty]]; unfold get.
  - rewrite bool_decide_eq_false_2 by lia. done.
  - rewrite (bool_decide_eq_true_2 (index < _)) by done.
    rewrite bool_decide_eq_false_2; [done|].
    intros Heq. apply Hty. rewrite <- Heq.
    apply list_lookup_lookup_total_lt. unfold lockstep in Hl. lia.
Qed.

Lemma get_failures_witness :
  let l := mkList [Some (v_string "five")] [ti_string] in
  get ti_int 0 l = Throw bad_any_cast /\ get ti_int 1 l = Throw bad_any_cast.
Proof.
  simpl. split.
  - apply (get_failures ti_int 0
             (mkList [Some (v_string "five")] [ti_string])).
    + reflexivity.
    + right. simpl. split; [lia|discriminate].
  - apply (get_failures ti_int 1
             (mkList [Some (v_string "five")] [ti_string])).
    + reflexivity.
    + left. simpl. lia.
Defined.

(** C7.  [insert(index, value)] with an index strictly greater than the
    size does not fail and leaves the list, values and discriminators,
    unchanged; with [0 <= index <= size] it puts the value and its
    discriminator before position [index]: the new slot is at [index], the
    slots before it stay and the slots from [index] on move up by one.  The
    new slot holds [std::any(value)] under [typeid(T)], whatever the
    argument: for an [int], [double] or [std::string] the value itself under
    its type. *)
Theorem insert_spec (index : nat) (v : argument) (l : List) :
  (size l < index -> insert index v l = l) /\
  (lockstep l -> index <= size l ->
     let l' := insert index v l in
     lockstep l' /\ size l' = S (size l) /\
     slots l' = take index (slots l) ++ (arg_any v, arg_typeid v)
                                     :: drop index (slots l) /\
     slots l' !! index = Some (arg_any v, arg_typeid v) /\
     (forall j, j < index -> slots l' !! j = slots l !! j) /\
     (forall j, index <= j -> slots l' !! S j = slots l !! j)).
Proof.
  unfold size. split.
  - intros Hgt. unfold insert.
    destruct (decide (index <= length (data l))); [lia|done].
  - intros Hl Hle.
    destruct (insert_slots index v l Hl) as [Hl' Hs].
    simpl in Hl', Hs. rewrite (length_slots l Hl) in Hs.
    destruct (decide (index <= length (data l))) as [_|]; [|lia].
    assert (length (take index (slots l)) = index) as Htake.
    { rewrite length_take, (length_slots l Hl). lia. }
    simpl. split; [done|]. split; [|split; [done|]].
    { rewrite <- !length_slots, Hs by done.
      rewrite length_app. simpl. rewrite length_take, length_drop. lia. }
    rewrite Hs. split; [|split].
    + by rewrite list_lookup_middle.
    + intros j Hj. rewrite lookup_app_l by lia. by apply lookup_take_lt.
    + intros j Hj. rewrite lookup_app_r by lia. rewrite Htake.
      replace (S j - index) with (S (j - index)) by lia. simpl.
      rewrite lookup_drop. f_equal. lia.
Qed.

Lemma insert_spec_witness :
  let l := mkList [Some (v_int 5); Some (v_string "five")]
                  [ti_int; ti_string] in
  insert 3 (by_value (v_int 7)) l = l /\
  slots (insert 1 (by_value (v_int 7)) l) !! 1
  = Some (Some (v_int 7), ti_int).
Proof.
  simpl. split.
  - apply (insert_spec 3 (by_value (v_int 7))
             (mkList [Some (v_int 5); Some (v_string "five")]
                     [ti_int; ti_string])).
    unfold size. simpl. lia.
  - apply (insert_spec 1 (by_value (v_int 7))
             (mkList [Some (v_int 5); Some (v_string "five")]
                     [ti_int; ti_string])).
    + reflexivity.
    + unfold size. simpl. lia.
Defined.

(** C4.  For a valid index [i] ([0 <= i < size]), [pop(i)] returns the
    value stored at slot [i] and removes exactly that slot: the slots
    before [i] stay, every slot after [i] moves down by one position with
    its discriminator, and the size decreases by one. *)
Theorem pop_valid (i : nat) (l : List) :
  lockstep l -> i < size l ->
  exists v : any,
    data l !! i = Some v /\
    (pop (Some i) l).1 = Return v /\
    let l' := (pop (Some i) l).2 in
    lockstep l' /\ size l' = size l - 1 /\
    slots l' = delete i (slots l) /\
    (forall j, j < i -> slots l' !! j = slots l !! j) /\
    (forall j, i <= j -> slots l' !! j = slots l !! S j).
Proof.
  unfold size. intros Hl Hi.
  destruct (pop_slots (Some i) l Hl) as [Hl' Hs].
  simpl in Hl', Hs.
  exists (data l !!! i). split; [by apply list_lookup_lookup_total_lt|].
  unfold pop in *. destruct (decide (i < length (data l))); [|lia].
  simpl in *. split; [done|]. split; [done|]. split.
  { apply length_delete_lt, Hi. }
  split; [done|]. rewrite Hs. split.
  - intros j Hj. by apply list_lookup_delete_lt.
  - intros j Hj. by apply list_lookup_delete_ge.
Qed.

Lemma pop_valid_witness :
  let l := mkList [Some (v_int 5); Some (v_string "five")]
                  [ti_int; ti_string] in
  exists v : any,
    data l !! 0 = Some v /\
    (pop (Some 0) l).1 = Return v /\
    let l' := (pop (Some 0) l).2 in
    lockstep l' /\ size l' = size l - 1 /\
    slots l' = delete 0 (slots l) /\
    (forall j, j < 0 -> slots l' !! j = slots l !! j) /\
    (forall j, 0 <= j -> slots l' !! j = slots l !! S j).
Proof.
  apply (pop_valid 0 (mkList [Some (v_int 5); Some (v_string "five")]
                             [ti_int; ti_string])).
  - reflexivity.
  - unfold size. simpl. lia.
Defined.

(** *** The loops of [index] and [count] *)

Lemma remove_pred_spec value a :
  remove_pred value a = true <-> dynamic_match value a.
Proof.
  unfold remove_pred, std.any_cast_ptr, dynamic_match.
  destruct a as [w|]; [|done].
  destruct (decide (type_of w = type_of value)) as [Ht|Ht]; split.
  - done.
  - by intros [_ ?].
  - done.
  - by intros [? _].
Qed.

Lemma slot_matches_spec value l i :
  slot_matches value l i = true
  <-> qualified_match value (data l !!! i, types l !!! i).
Proof.
  unfold slot_matches, qualified_match. simpl.
  rewrite andb_true_iff, bool_decide_eq_true.
  fold (remove_pred value (data l !!! i)). rewrite remove_pred_spec. done.
Qed.

Lemma slots_lookup l i :
  lockstep l -> i < length (data l) ->
  slots l !! i = Some (data l !!! i, types l !!! i).
Proof.
  intros Hl Hi. apply lookup_zip_Some.
  split; apply list_lookup_lookup_total_lt; unfold lockstep in Hl; lia.
Qed.

Lemma index_loop_Return value l n i r :
  index_loop value l n i = Return r ->
  i <= r < length (data l) /\ slot_matches value l r = true /\
  forall j, i <= j < r -> slot_matches value l j = false.
Proof.
  revert i. induction n as [|n IH]; intros i; simpl; [done|].
  case_decide as Hi; [|done].
  destruct (slot_matches value l i) eqn:Hm.
  - intros [= <-]. repeat split; [lia|lia|done|lia].
  - intros Hr. destruct (IH _ Hr) as (Hle & Hmr & Hfirst).
    repeat split; [lia|lia|done|].
    intros j Hj. destruct (decide (j = i)) as [->|]; [done|].
    apply Hfirst. lia.
Qed.

Lemma index_loop_Throw value l n i e :
  length (data l) - i <= n ->
  index_loop value l n i = Throw e ->
  e = invalid_argument "Value not found" /\
  forall j, i <= j < length (data l) -> slot_matches value l j = false.
Proof.
  revert i. induction n as [|n IH]; intros i Hn; simpl.
  - intros [= <-]. split; [done|]. intros j Hj. lia.
  - case_decide as Hi; [|intros [= <-]; split; [done|intros j Hj; lia]].
    destruct (slot_matches value l i) eqn:Hm; [done|].
    intros Hr. destruct (IH (S i) ltac:(lia) Hr) as [-> Hnone].
    split; [done|]. intros j Hj.
    destruct (decide (j = i)) as [->|]; [done|]. apply Hnone. lia.
Qed.

Lemma count_loop_filter value l n i c :
  lockstep l -> i + n = length (data l) ->
  count_loop value l n i c
  = c + length (filter (qualified_match value) (drop i (slots l))).
Proof.
  intros Hl. revert i c. induction n as [|n IH]; intros i c Hn; simpl.
  - rewrite drop_ge by (rewrite length_slots by done; lia). simpl. lia.
  - case_decide as Hi; [|lia].
    rewrite IH by lia.
    rewrite (drop_S (slots l) _ i (slots_lookup l i Hl Hi)).
    rewrite filter_cons.
    destruct (slot_matches value l i) eqn:Hm.
    + rewrite decide_True by (by apply slot_matches_spec). simpl. lia.
    + rewrite decide_False; [done|].
      rewrite <- slot_matches_spec, Hm. done.
Qed.

Lemma count_filter value l :
  lockstep l ->
  count value l = length (filter (qualified_match value) (slots l)).
Proof. intros Hl. unfold count. by rewrite count_loop_filter. Qed.

Lemma index_Return value start l i :
  lockstep l -> index value start l = Return i ->
  start <= i /\
  (exists p, slots l !! i = Some p /\ qualified_match value p) /\
  (forall j p, start <= j < i -> slots l !! j = Some p ->
               ~ qualified_match value p).
Proof.
  intros Hl Hr. apply index_loop_Return in Hr as (Hi & Hm & Hfirst).
  split; [lia|]. split.
  - exists (data l !!! i, types l !!! i).
    split; [apply slots_lookup; [done|lia] | by apply slot_matches_spec].
  - intros j p Hj Hp Hq.
    rewrite slots_lookup in Hp by (done || lia). injection Hp as <-.
    apply slot_matches_spec in Hq. rewrite Hfirst in Hq by lia. done.
Qed.

Lemma index_Throw value start l e :
  lockstep l -> index value start l = Throw e ->
  e = invalid_argument "Value not found" /\
  (forall j p, start <= j -> slots l !! j = Some p ->
               ~ qualified_match value p).
Proof.
  intros Hl Hr. apply index_loop_Throw in Hr as [-> Hnone]; [|lia].
  split; [done|]. intros j p Hj Hp Hq.
  assert (j < length (data l)) as Hlt.
  { rewrite <- length_slots by done. by eapply lookup_lt_Some. }
  rewrite slots_lookup in Hp by done. injection Hp as <-.
  apply slot_matches_spec in Hq. rewrite Hnone in Hq by lia. done.
Qed.

(** C2.  [index] and [count] use type-qualified comparison.  On every
    list (with one discriminator per value): a slot returned by
    [index(value, start)] is at or after [start], has the discriminator of
    the searched value's type [T] exactly and stores a value of type [T]
    equal to it, and no earlier slot from [start] on does; when [index]
    fails, no slot from [start] on matches in that sense; [index] never
    returns a slot whose stored value has another type; and [count] is the
    number of slots that match in that sense.  In particular, on
    [[int 5, text "five", float 5.0]], [index] of integer 5 returns 0 and
    never the slot that holds floating 5.0, and [count] of floating 5.0 is
    1. *)
Theorem index_count_type_qualified :
  (forall (value : value) (l : List),
     lockstep l ->
     (forall start i,
        index value start l = Return i ->
        start <= i /\
        (exists p, slots l !! i = Some p /\ qualified_match value p) /\
        (forall j p, start <= j < i -> slots l !! j = Some p ->
                     ~ qualified_match value p)) /\
     (forall start e,
        index value start l = Throw e ->
        e = invalid_argument "Value not found" /\
        (forall j p, start <= j -> slots l !! j = Some p ->
                     ~ qualified_match value p)) /\
     (forall start i w,
        data l !! i = Some (Some w) -> type_of w <> type_of value ->
        index value start l <> Return i) /\
     count value l = length (filter (qualified_match value) (slots l))) /\
  index (v_int 5) 0 scenario = Return 0 /\
  (forall start, index (v_int 5) start scenario <> Return 2) /\
  count (v_double five_point_zero) scenario = 1.
Proof.
  assert (forall (value : value) (l : List) start i w,
            lockstep l ->
            data l !! i = Some (Some w) -> type_of w <> type_of value ->
            index value start l <> Return i) as Hother.
  { intros value l start i w Hl Hw Hty Hr.
    apply index_Return in Hr as (_ & (p & Hp & Hq) & _); [|done].
    destruct p as [a t]. apply lookup_zip_Some in Hp as [Ha _].
    rewrite Hw in Ha. injection Ha as <-.
    destruct Hq as [_ [Hq _]]. done. }
  split; [|split; [done|split; [|done]]].
  - intros value l Hl. split; [|split; [|split]].
    + intros start i. by apply index_Return.
    + intros start e. by apply index_Throw.
    + intros start i w. by apply Hother.
    + by apply count_filter.
  - intros start.
    by apply (Hother (v_int 5) scenario start 2 (v_double five_point_zero)).
Qed.

Lemma index_count_type_qualified_witness :
  lockstep scenario /\
  count (v_int 5) scenario
  = length (filter (qualified_match (v_int 5)) (slots scenario)).
Proof.
  split; [reflexivity|].
  apply (proj1 index_count_type_qualified (v_int 5) scenario). reflexivity.
Defined.

(** C10.  [remove(value)], called at type [T], selects the first slot
    whose stored value has dynamic type [T] and compares equal to [value];
    the recorded discriminators play no part in the selection.  That slot
    is erased from both vectors even when its discriminator is not [T], in
    which case [index] never returns it and [count] does not count it (the
    count is the same before and after the removal). *)
Theorem remove_by_dynamic_type (value : value) (l : List) (i : nat) :
  lockstep l ->
  (exists a, data l !! i = Some a /\ dynamic_match value a) ->
  (forall j a, j < i -> data l !! j = Some a -> ~ dynamic_match value a) ->
  remove value l = mkList (delete i (data l)) (delete i (types l)) /\
  (forall types', data (remove value (mkList (data l) types'))
                  = delete i (data l)) /\
  (types l !! i <> Some (type_of value) ->
     (forall start, index value start l <> Return i) /\
     count value l = count value (remove value l)).
Proof.
  intros Hl (a & Ha & Hm) Hfirst.
  assert (std.find_if (remove_pred value) (data l) = Some i) as Hfind.
  { apply find_if_Some. exists a. split; [done|].
    split; [by apply remove_pred_spec|].
    intros j y Hy Hj Hp. apply remove_pred_spec in Hp.
    by apply (Hfirst j y). }
  assert (remove value l = mkList (delete i (data l)) (delete i (types l)))
    as Hrm.
  { unfold remove. by rewrite Hfind. }
  split; [done|]. split.
  { intros types'. unfold remove. simpl. by rewrite Hfind. }
  intros Hty.
  assert (i < length (data l)) as Hi by (by eapply lookup_lt_Some).
  assert (~ qualified_match value (data l !!! i, types l !!! i)) as Hnq.
  { intros [Hq _]. simpl in Hq. apply Hty. rewrite <- Hq.
    apply list_lookup_lookup_total_lt. unfold lockstep in Hl. lia. }
  split.
  - intros start Hr.
    apply index_Return in Hr as (_ & (p & Hp & Hq) & _); [|done].
    rewrite slots_lookup in Hp by done. injection Hp as <-. done.
  - assert (lockstep (remove value l)) as Hl'.
    { apply (remove_slots value l Hl). }
    rewrite !count_filter by done. rewrite Hrm. unfold slots at 2. simpl.
    rewrite zip_delete. fold (slots l).
    by rewrite (filter_delete_unmatched _ _ _ _ (slots_lookup l i Hl Hi)).
Qed.

(** An instance: slot 0 was appended as an [int] and then assigned a text
    through [operator[]]; [remove] of that text erases it, [index] does not
    find it. *)
Lemma remove_by_dynamic_type_witness :
  let l := assign_at 0 (Some (v_string "five")) (append (by_value (v_int 5)) List_new) in
  remove (v_string "five") l = List_new /\
  (forall start, index (v_string "five") start l <> Return 0) /\
  count (v_string "five") l = 0.
Proof.
  pose proof (remove_by_dynamic_type (v_string "five")
                (assign_at 0 (Some (v_string "five"))
                   (append (by_value (v_int 5)) List_new)) 0) as H.
  destruct H as (Hrm & _ & Hskip).
  - reflexivity.
  - exists (Some (v_string "five")). split; [reflexivity|].
    split; reflexivity.
  - intros j a Hj. lia.
  - split; [exact Hrm|]. split.
    + apply Hskip. discriminate.
    + reflexivity.
Defined.

(** *** [join] *)

Section Join.
Variable to_string_double : double -> string.
Variable name : type_info -> string.
Variable address : nat -> Z.

Local Abbreviation join_slot := (join_slot to_string_double name address).
Local Abbreviation join_loop := (join_loop to_string_double name address).
Local Abbreviation join := (join to_string_double name address).
Local Abbreviation slot_text := (slot_text to_string_double name address).
Local Abbreviation joined_from :=
  (joined_from to_string_double name address).

Lemma join_slot_Return l i w :
  lockstep l -> well_typed l -> data l !! i = Some (Some w) ->
  join_slot l i = Return (slot_text l i).
Proof.
  intros Hl Hwt Hw.
  assert (i < length (data l)) as Hi by (by eapply lookup_lt_Some).
  unfold well_typed in Hwt. rewrite Forall_lookup in Hwt.
  specialize (Hwt i _ (slots_lookup l i Hl Hi)).
  unfold slot_text, easycpp.join_slot in *.
  rewrite (list_lookup_total_correct _ _ _ Hw) in *.
  unfold slot_well_typed in Hwt. simpl in Hwt.
  destruct (decide (types l !!! i = ti_int)) as [Ht|_].
  { rewrite Ht in Hwt. specialize (Hwt (or_introl eq_refl)).
    by destruct w. }
  destruct (decide (types l !!! i = ti_double)) as [Ht|_].
  { rewrite Ht in Hwt. specialize (Hwt (or_intror (or_introl eq_refl))).
    by destruct w. }
  destruct (decide (types l !!! i = ti_string)) as [Ht|_]; [|done].
  rewrite Ht in Hwt. specialize (Hwt (or_intror (or_intror eq_refl))).
  by destruct w.
Qed.

Lemma join_loop_reset separator l k :
  lockstep l -> well_typed l -> data l !! k = Some None ->
  forall d i result,
    i + d = k ->
    join_loop separator l (length (data l) - i) i result
    = join_loop separator l (length (data l) - S k) (S k) "".
Proof.
  intros Hl Hwt Hk.
  assert (k < length (data l)) as Hlt by (by eapply lookup_lt_Some).
  induction d as [|d IH]; intros i result Hd.
  - replace i with k by lia.
    replace (length (data l) - k) with (S (length (data l) - S k)) by lia.
    simpl. rewrite decide_True by done.
    by rewrite (list_lookup_total_correct _ _ _ Hk).
  - replace (length (data l) - i)
      with (S (length (data l) - S i)) by lia.
    simpl. rewrite decide_True by lia.
    destruct (data l !! i) as [[w|]|] eqn:Hi.
    + rewrite (list_lookup_total_correct _ _ _ Hi). simpl.
      rewrite (join_slot_Return l i w) by done. apply IH. lia.
    + rewrite (list_lookup_total_correct _ _ _ Hi). simpl. apply IH. lia.
    + apply lookup_ge_None in Hi. lia.
Qed.

Lemma join_loop_no_empty separator l :
  lockstep l -> well_typed l ->
  forall n i result,
    i + n = length (data l) -> 0 < i ->
    (forall j, i <= j -> data l !! j <> Some None) ->
    join_loop separator l n i result
    = Return (foldl (fun result j =>
                       (result +:+ separator) +:+ slot_text l j)
                    result (seq i n)).
Proof.
  intros Hl Hwt. induction n as [|n IH]; intros i result Hn Hpos Hne.
  - done.
  - simpl. rewrite decide_True by lia. rewrite decide_True by done.
    destruct (data l !! i) as [[w|]|] eqn:Hi.
    + rewrite (list_lookup_total_correct _ _ _ Hi). simpl.
      rewrite (join_slot_Return l i w) by done.
      apply IH; [lia|lia|]. intros j Hj. apply Hne. lia.
    + by destruct (Hne i ltac:(lia)).
    + apply lookup_ge_None in Hi. lia.
Qed.

(** C5, amended.  [join] empties the text built so far when it reaches
    an empty slot and then goes on.  On a list (one discriminator per
    value; slots recorded as [int], [double] or [std::string] store a
    value of that type) whose last empty slot is at position [k],
    [join(separator)] returns the texts of the slots after [k], each one
    preceded by the separator; so it returns the empty text when the
    empty slot is the last slot of the list. *)
Theorem join_after_last_empty (separator : string) (l : List) (k : nat) :
  lockstep l -> well_typed l ->
  data l !! k = Some None ->
  (forall j, k < j -> data l !! j <> Some None) ->
  join separator l
    = Return (joined_from separator l (S k) (length (data l) - S k)) /\
  (S k = length (data l) -> join separator l = Return "").
Proof.
  intros Hl Hwt Hk Hlast.
  assert (k < length (data l)) as Hlt by (by eapply lookup_lt_Some).
  assert (join separator l
          = Return (joined_from separator l (S k)
                      (length (data l) - S k))) as Hjoin.
  { unfold easycpp.join.
    rewrite <- (Nat.sub_0_r (length (data l))) at 1.
    rewrite (join_loop_reset separator l k Hl Hwt Hk k 0 "") by lia.
    apply join_loop_no_empty; [done|done|lia|lia|].
    intros j Hj. apply Hlast. lia. }
  split; [done|]. intros Hend. rewrite Hjoin.
  replace (length (data l) - S k) with 0 by lia. done.
Qed.

End Join.

(** C5, as stated, fails: the list [[empty, int 5]] has an empty slot
    and [join(",")] returns ",5" on it. *)
Lemma join_empty_slot_not_last :
  ~ (forall (to_string_double : double -> string)
            (name : type_info -> string) (address : nat -> Z)
            (separator : string) (l : List),
       lockstep l -> (exists i, data l !! i = Some None) ->
       join to_string_double name address separator l = Return "").
Proof.
  intros H.
  specialize (H (fun _ => "") (fun _ => "") (fun _ => 0%Z) ","
                (mkList [None; Some (v_int 5)] [ti_int; ti_int])
                eq_refl (ex_intro _ 0 eq_refl)).
  vm_compute in H. discriminate H.
Qed.

Lemma join_after_last_empty_witness :
  join (fun _ => "") (fun _ => "") (fun _ => 0%Z) ","
       (mkList [None; Some (v_int 5); None; Some (v_string "five")]
               [ti_int; ti_int; ti_string; ti_string])
  = Return ",five".
Proof.
  refine (proj1 (join_after_last_empty (fun _ => "") (fun _ => "")
            (fun _ => 0%Z) ","
            (mkList [None; Some (v_int 5); None; Some (v_string "five")]
                    [ti_int; ti_int; ti_string; ti_string]) 2 _ _ _ _)).
  - reflexivity.
  - repeat constructor; intros _; reflexivity.
  - reflexivity.
  - intros [|[|[|[|j]]]] Hj; try lia; discriminate.
Defined.

End List_proofs.

(** ** Properties of [open] *)

Module FileOperator_proofs.
Import FileOperator.

Lemma strcmp_zero a b : (strcmp a b =? 0)%Z = true -> a = b.
Proof.
  unfold strcmp. destruct (String.compare a b) eqn:Hc; try done.
  intros _. by apply String.compare_eq_iff.
Qed.

Lemma read_oriented_test method :
  (strcmp method READ =? 0)%Z || (strcmp method READ_E =? 0)%Z = true
  <-> method = READ \/ method = READ_E.
Proof.
  rewrite orb_true_iff. split.
  - intros [H|H]; apply strcmp_zero in H; auto.
  - intros [->| ->]; [by left|by right].
Qed.

Section Native.
Variable world : Type.
Variable FILE : Type.
Variable access : world -> string -> Z -> Z.
Variable fopen_s : world -> string -> string -> Z * FILE * world.

Local Abbreviation open := (open world FILE access fopen_s).

(** C8.  [open] with mode [READ] or [READ_E] on a path that does not
    exist throws [FileNotExistError] after the existence check alone: no
    native open call is made.  If the path exists but is not both
    readable and writable it throws [FilePermissionError], again without
    a native open call.  For any mode, once the checks made for that
    mode have passed, a native open call that fails makes [open] throw
    [FileUnknownError]. *)
Theorem open_failures (w : world) (calls : list native_call)
    (name method : string) :
  (method = READ \/ method = READ_E ->
   access w name F_OK <> 0%Z ->
   let made := [call_access name F_OK] in
   open name method (w, calls)
     = (Throw (FileNotExistError name), (w, calls ++ made)) /\
   opened made = false) /\
  (method = READ \/ method = READ_E ->
   access w name F_OK = 0%Z ->
   access w name (Z.lor R_OK W_OK) <> 0%Z ->
   let made := [call_access name F_OK;
                call_access name (Z.lor R_OK W_OK)] in
   open name method (w, calls)
     = (Throw (FilePermissionError name FILE_NOT_PERMISSION),
        (w, calls ++ made)) /\
   opened made = false) /\
  (~ (method = READ \/ method = READ_E) \/
     (access w name F_OK = 0%Z /\
      access w name (Z.lor R_OK W_OK) = 0%Z) ->
   (fopen_s w name method).1.1 <> 0%Z ->
   (open name method (w, calls)).1 = Throw (FileUnknownError name) /\
   opened (open name method (w, calls)).2.2 = true).
Proof.
  split; [|split].
  - intros Hread Hmiss. split; [|done].
    apply read_oriented_test in Hread.
    unfold FileOperator.open, mbind, M_bind, bind. rewrite Hread.
    unfold is_exist, mbind, M_bind, bind, native_access, ret. simpl.
    apply Z.eqb_neq in Hmiss. rewrite Hmiss. done.
  - intros Hread Hex Hperm. split; [|done].
    apply read_oriented_test in Hread.
    unfold FileOperator.open, mbind, M_bind, bind. rewrite Hread.
    unfold is_exist, check_permission, mbind, M_bind, bind,
      native_access, ret. simpl.
    rewrite Hex. simpl.
    apply Z.eqb_neq in Hperm. rewrite Hperm. simpl.
    by rewrite <- app_assoc.
  - intros Hpre Hfail. apply Z.eqb_neq in Hfail.
    unfold FileOperator.open, mbind, M_bind, bind.
    destruct ((strcmp method READ =? 0)%Z || (strcmp method READ_E =? 0)%Z)
      eqn:Hread.
    + apply read_oriented_test in Hread.
      destruct Hpre as [Hno|[Hex Hperm]]; [done|].
      unfold is_exist, check_permission, mbind, M_bind, bind,
        native_access, native_fopen_s, ret. simpl.
      rewrite Hex. simpl. rewrite Hperm. simpl. rewrite Hfail. simpl.
      split; [done|]. unfold opened. rewrite existsb_app. simpl.
      apply orb_true_r.
    + unfold native_fopen_s, ret. simpl. rewrite Hfail. simpl.
      split; [done|]. unfold opened. rewrite existsb_app. simpl.
      apply orb_true_r.
Qed.

End Native.

Lemma open_failures_witness :
  open unit nat scenario_access scenario_fopen_s "missing.txt" READ (tt, [])
    = (Throw (FileNotExistError "missing.txt"),
       (tt, [call_access "missing.txt" F_OK])) /\
  (open unit nat scenario_access scenario_fopen_s "locked.txt" READ_E
     (tt, [])).1
    = Throw (FilePermissionError "locked.txt" FILE_NOT_PERMISSION) /\
  (open unit nat scenario_access scenario_fopen_s "out.txt" WRITE
     (tt, [])).1
    = Throw (FileUnknownError "out.txt").
Proof.
  split; [|split].
  - apply (open_failures unit nat scenario_access scenario_fopen_s tt []
             "missing.txt" READ).
    + left. reflexivity.
    + vm_compute. discriminate.
  - destruct (open_failures unit nat scenario_access scenario_fopen_s tt []
                "locked.txt" READ_E) as (_ & H & _).
    destruct H as [-> _].
    + right. reflexivity.
    + reflexivity.
    + vm_compute. discriminate.
    + reflexivity.
  - apply (open_failures unit nat scenario_access scenario_fopen_s tt []
             "out.txt" WRITE).
    + left. intros [H|H]; discriminate H.
    + vm_compute. discriminate.
Defined.

End FileOperator_proofs.


(** ** Further properties of [List] *)

Module List_more.
Import easycpp List_spec List_proofs.

(** *** Helper lemmas *)

Lemma slots_append x l :
  lockstep l -> slots (append x l) = slots l ++ [(arg_any x, arg_typeid x)].
Proof. intros Hl. apply (append_slots x l Hl). Qed.

Lemma op_eq_type_of w v : op_eq w v = true -> type_of w = type_of v.
Proof.
  destruct w, v; simpl; try done.
  intros H. apply andb_true_iff in H as [H _].
  apply String.eqb_eq in H. by rewrite H.
Qed.

Lemma qualified_match_own_slot v :
  qualified_match v (Some v, type_of v) <-> op_eq v v = true.
Proof. unfold qualified_match. simpl. tauto. Qed.

(** [index] finds the first matching slot from [start] on. *)
Lemma index_first value start l i :
  lockstep l -> start <= i ->
  (exists p, slots l !! i = Some p /\ qualified_match value p) ->
  (forall j p, start <= j < i -> slots l !! j = Some p ->
               ~ qualified_match value p) ->
  index value start l = Return i.
Proof.
  intros Hl Hi (p & Hp & Hq) Hfirst.
  destruct (index value start l) as [r|e] eqn:Hr.
  - apply index_Return in Hr as (Hsr & (q & Hq' & Hqm) & Hbefore); [|done].
    destruct (decide (r = i)) as [->|Hne]; [done|].
    destruct (decide (r < i)).
    + destruct (Hfirst r q); (lia || done).
    + destruct (Hbefore i p); (lia || done).
  - apply index_Throw in Hr as [_ Hnone]; [|done].
    destruct (Hnone i p); done.
Qed.

(** X1.  After [append] the count of a value is one more than before
    exactly when the appended argument is recorded under the value's type
    [T] and is stored as a value of dynamic type [T] equal to it, and it is
    unchanged otherwise.  So appending an [int], [double] or [std::string]
    raises its own count by one unless it does not equal itself (a NaN);
    appending a string literal (a pointer stored under the array type) or an
    argument of type [std::any] raises no count ([count] itself cannot be
    called at type [std::any], which has no [==]). *)
Theorem count_append (v : value) (x : argument) (l : List) :
  lockstep l ->
  count v (append x l)
  = (if decide (qualified_match v (arg_any x, arg_typeid x))
     then S (count v l) else count v l) /\
  count v (append (by_value v) l)
  = (if op_eq v v then S (count v l) else count v l) /\
  (forall a, type_of v <> ti_any ->
             count v (append (by_any a) l) = count v l) /\
  (forall array_type pointer,
     array_type <> "const char*" ->
     count v (append (by_literal array_type pointer) l) = count v l).
Proof.
  intros Hl.
  assert (forall y, count v (append y l)
                    = if decide (qualified_match v (arg_any y, arg_typeid y))
                      then S (count v l) else count v l) as Hgen.
  { intros y.
    assert (lockstep (append y l)) as Hl' by apply (append_slots y l Hl).
    rewrite !count_filter, slots_append by done.
    rewrite filter_app, length_app, filter_cons, filter_nil.
    case_decide; simpl; lia. }
  split; [apply Hgen|]. split; [|split].
  - rewrite Hgen.
    destruct (decide (qualified_match v (arg_any (by_value v),
                                         arg_typeid (by_value v))))
      as [Hq|Hq].
    + apply qualified_match_own_slot in Hq. by rewrite Hq.
    + destruct (op_eq v v) eqn:Hv; [|done].
      destruct Hq. by apply qualified_match_own_slot.
  - intros a Hne. rewrite Hgen. rewrite decide_False; [done|].
    unfold qualified_match, by_any. simpl. intros [Ht _]. by apply Hne.
  - intros array_type pointer Hne. rewrite Hgen.
    rewrite decide_False; [done|].
    unfold qualified_match, by_literal. simpl. intros [Ht [Hw _]].
    rewrite <- Ht in Hw. injection Hw as Hw. by apply Hne.
Qed.

Lemma count_append_witness :
  count (v_int 5) (append (by_value (v_int 5)) scenario) = 2.
Proof.
  refine (proj1 (proj2 (count_append (v_int 5) (by_value (v_int 5))
                          scenario _))).
  reflexivity.
Defined.



(** X3.  Reversing a list changes no count. *)
Theorem count_reverse (v : value) (l : List) :
  lockstep l -> count v (reverse l) = count v l.
Proof.
  intros Hl. destruct (reverse_slots l Hl) as [Hl' Hs]. simpl in Hs.
  rewrite !count_filter, Hs by done.
  by rewrite filter_reverse, length_reverse.
Qed.

Lemma count_reverse_witness :
  count (v_string "five") (reverse scenario) = count (v_string "five") scenario.
Proof. apply (count_reverse (v_string "five") scenario). reflexivity. Defined.

(** X4.  [index] from the start fails exactly when the count is zero, and
    it fails with [std::invalid_argument]; otherwise it returns a position
    inside the list. *)
Theorem index_fails_iff_count_zero (v : value) (l : List) :
  lockstep l ->
  (count v l = 0 <->
   index v 0 l = Throw (invalid_argument "Value not found")) /\
  (0 < count v l <-> exists i, index v 0 l = Return i /\ i < size l).
Proof.
  intros Hl. rewrite count_filter by done.
  assert (filter (qualified_match v) (slots l) = []
          <-> index v 0 l = Throw (invalid_argument "Value not found"))
    as Hzero.
  { split.
    - intros Hnil. destruct (index v 0 l) as [r|e] eqn:Hr.
      + apply index_Return in Hr as (_ & (p & Hp & Hq) & _); [|done].
        destruct (filter_nil_not_elem_of _ _ p Hnil Hq).
        by eapply list_elem_of_lookup_2.
      + by apply index_Throw in Hr as [-> _].
    - intros Hr. apply index_Throw in Hr as [_ Hnone]; [|done].
      destruct (filter (qualified_match v) (slots l)) as [|p f] eqn:Hf;
        [done|].
      assert (p ∈ filter (qualified_match v) (slots l)) as Hin
        by (rewrite Hf; left).
      apply list_elem_of_filter in Hin as [Hq Hin].
      apply list_elem_of_lookup in Hin as [j Hj].
      destruct (Hnone j p); (lia || done). }
  split.
  - rewrite <- Hzero. split; [apply nil_length_inv | by intros ->].
  - split.
    + intros Hpos. destruct (index v 0 l) as [r|e] eqn:Hr.
      * exists r. split; [done|].
        apply index_Return in Hr as (_ & (p & Hp & _) & _); [|done].
        unfold size. rewrite <- length_slots by done.
        by eapply lookup_lt_Some.
      * apply index_Throw in Hr as [-> _]; [|done].
        pose proof (proj2 Hzero eq_refl) as Hnil. rewrite Hnil in Hpos.
        simpl in Hpos. lia.
    + intros (i & Hr & _). apply Nat.neq_0_lt_0. intros Hlen.
      apply nil_length_inv in Hlen. apply Hzero in Hlen. congruence.
Qed.

Lemma index_fails_iff_count_zero_witness :
  (count (v_int 7) scenario = 0 <->
   index (v_int 7) 0 scenario = Throw (invalid_argument "Value not found")) /\
  (0 < count (v_int 7) scenario <->
   exists i, index (v_int 7) 0 scenario = Return i /\ i < size scenario).
Proof. apply (index_fails_iff_count_zero (v_int 7) scenario). reflexivity. Defined.

(** *** [get], [insert], [pop] and [operator[]] *)

Lemma delete_insert_at {A} i (x : A) (v : list A) :
  i <= length v -> delete i (take i v ++ x :: drop i v) = v.
Proof.
  intros Hi. pose proof (delete_middle (take i v) (drop i v) x) as H.
  rewrite length_take in H. replace (i `min` length v) with i in H by lia.
  rewrite H. apply take_drop.
Qed.

Lemma lookup_total_insert_at {A} `{!Inhabited A} i (x : A) (v : list A) :
  i <= length v -> (take i v ++ x :: drop i v) !!! i = x.
Proof.
  intros Hi. apply list_lookup_total_middle. rewrite length_take. lia.
Qed.

(** [get] read on the slots. *)
Lemma get_slot T i l a t :
  lockstep l -> slots l !! i = Some (a, t) ->
  get T i l = if decide (t = T) then std.any_cast T a else Throw bad_any_cast.
Proof.
  intros Hl Hp. apply lookup_zip_Some in Hp as [Ha Ht].
  unfold get. rewrite bool_decide_eq_true_2 by (by eapply lookup_lt_Some).
  rewrite (list_lookup_total_correct _ _ _ Ha).
  rewrite (list_lookup_total_correct _ _ _ Ht). simpl.
  by destruct (decide (t = T)); [rewrite bool_decide_eq_true_2
                                | rewrite bool_decide_eq_false_2].
Qed.

Lemma get_outside T i l : size l <= i -> get T i l = Throw bad_any_cast.
Proof.
  unfold size, get. intros Hi. by rewrite bool_decide_eq_false_2 by lia.
Qed.

Lemma any_cast_Return T a w :
  std.any_cast T a = Return w <-> a = Some w /\ type_of w = T.
Proof.
  unfold std.any_cast, std.any_cast_ptr. destruct a as [w'|].
  - destruct (decide (type_of w' = T)) as [Ht|Ht]; split.
    + by intros [= ->].
    + by intros [[= ->] _].
    + done.
    + intros [[= ->] ?]. done.
  - split; [done|]. by intros [? _].
Qed.

(** X5.  [get<T>(index)] returns a value exactly when the index is in
    bounds, the slot is recorded with type [T] and the stored value has
    dynamic type [T]; it then returns that stored value.  In every other
    case it throws [std::bad_any_cast], so it never hands out a value of
    another type. *)
Theorem get_returns_stored_value (T : type_info) (i : nat) (l : List) :
  lockstep l ->
  (forall w, get T i l = Return w
             <-> slots l !! i = Some (Some w, T) /\ type_of w = T) /\
  ((forall w, get T i l <> Return w) -> get T i l = Throw bad_any_cast).
Proof.
  intros Hl. destruct (slots l !! i) as [[a t]|] eqn:Hp.
  - rewrite (get_slot T i l a t Hl Hp).
    destruct (decide (t = T)) as [->|Hne].
    + split.
      * intros w. rewrite any_cast_Return. split.
        -- by intros [-> ?].
        -- by intros [[= ->] ?].
      * intros Hno. unfold std.any_cast in *.
        destruct (std.any_cast_ptr T a) as [w|]; [by destruct (Hno w)|done].
    + split; [|done]. intros w. split; [done|]. intros [[= _ ?] _]. done.
  - rewrite get_outside.
    + split; [|done]. intros w. split; [done|]. by intros [? _].
    + unfold size. rewrite <- length_slots by done. by apply lookup_ge_None.
Qed.

Lemma get_returns_stored_value_witness :
  get ti_string 1 scenario = Return (v_string "five").
Proof.
  apply (proj1 (get_returns_stored_value ti_string 1 scenario eq_refl)).
  split; reflexivity.
Defined.



(** X7.  [insert(size(), value)] has the effect of [append(value)]; and
    after [insert(index, value)] at a valid index, [get<T>(index)] succeeds
    exactly when the argument is recorded under [T] and is stored as a value
    of dynamic type [T], returning that stored value: an inserted [int],
    [double] or [std::string] is read back with its own type. *)
Theorem insert_append_get (T : type_info) (index : nat) (x : argument)
    (l : List) :
  lockstep l ->
  insert (size l) x l = append x l /\
  (index <= size l ->
   get T index (insert index x l)
   = (if decide (arg_typeid x = T) then std.any_cast T (arg_any x)
      else Throw bad_any_cast)) /\
  (forall v, index <= size l ->
             get (type_of v) index (insert index (by_value v) l) = Return v).
Proof.
  intros Hl.
  assert (forall T' y, index <= size l ->
            get T' index (insert index y l)
            = if decide (arg_typeid y = T') then std.any_cast T' (arg_any y)
              else Throw bad_any_cast) as Hgen.
  { intros T' y Hi. destruct (insert_slots index y l Hl) as [Hl' Hs].
    simpl in Hs. rewrite (length_slots l Hl) in Hs. unfold size in Hi.
    rewrite decide_True in Hs by done.
    apply (get_slot T' _ _ (arg_any y) (arg_typeid y) Hl').
    rewrite Hs. apply list_lookup_middle.
    rewrite length_take, (length_slots l Hl). lia. }
  split; [|split].
  - unfold insert, append, size. rewrite decide_True by done.
    rewrite firstn_all, drop_all.
    unfold lockstep in Hl. rewrite Hl, firstn_all, drop_all. done.
  - apply Hgen.
  - intros v Hi. rewrite Hgen by done.
    destruct (decide (arg_typeid (by_value v) = type_of v)) as [_|Hne];
      [|by destruct Hne].
    by apply any_cast_Return.
Qed.

Lemma insert_append_get_witness :
  get ti_int 1 (insert 1 (by_value (v_int 7)) scenario) = Return (v_int 7).
Proof.
  refine (proj2 (proj2 (insert_append_get ti_int 1 (by_value (v_int 7))
                          scenario _)) (v_int 7) _).
  - reflexivity.
  - unfold size. simpl. lia.
Defined.

(** X8.  [pop(index)] undoes [insert(index, value)]: it returns what the
    insertion stored (the inserted value itself for an [int], [double] or
    [std::string]) and leaves the list as it was before the insertion; in
    particular [pop()] undoes [append(value)]. *)
Theorem pop_undoes_insert (index : nat) (v : argument) (l : List) :
  lockstep l -> index <= size l ->
  pop (Some index) (insert index v l) = (Return (arg_any v), l) /\
  pop None (append v l) = (Return (arg_any v), l).
Proof.
  intros Hl Hi. unfold lockstep in Hl. unfold size in Hi.
  destruct l as [d t]. simpl in *. split.
  - unfold insert. simpl. destruct (decide (index <= length d)); [|lia].
    unfold pop. simpl.
    rewrite decide_True
      by (rewrite length_app; simpl; rewrite length_take, length_drop; lia).
    rewrite lookup_total_insert_at by done.
    by rewrite !delete_insert_at by lia.
  - unfold append, pop, empty. simpl.
    rewrite bool_decide_eq_false_2 by (by destruct d).
    rewrite length_app. simpl.
    replace (length d + 1 - 1) with (length d) by lia.
    rewrite decide_True by lia.
    rewrite (list_lookup_total_middle _ _ _ (length d)) by done.
    rewrite delete_middle, app_nil_r.
    rewrite Hl, delete_middle, app_nil_r. done.
Qed.

Lemma pop_undoes_insert_witness :
  pop (Some 1) (insert 1 (by_value (v_int 7)) scenario)
  = (Return (Some (v_int 7)), scenario).
Proof.
  apply (pop_undoes_insert 1 (by_value (v_int 7)) scenario).
  - reflexivity.
  - unfold size. simpl. lia.
Defined.

(** X9.  After an assignment through [operator[]] that stores a value of
    another type than the recorded one, or no value, the slot cannot be read
    with [get] any more: [get<T>] throws [std::bad_any_cast] at that index
    for every [T], the recorded type included. *)
Theorem get_after_mistyped_assignment (i : nat) (a : any) (t : type_info)
    (l : List) :
  lockstep l -> types l !! i = Some t ->
  (forall w, a = Some w -> type_of w <> t) ->
  forall T, get T i (assign_at i a l) = Throw bad_any_cast.
Proof.
  intros Hl Ht Ha T.
  assert (i < length (data l)) as Hi.
  { unfold lockstep in Hl. rewrite Hl. by eapply lookup_lt_Some. }
  assert (lockstep (assign_at i a l)) as Hl'.
  { unfold lockstep, assign_at. simpl. by rewrite length_insert. }
  rewrite (get_slot T i _ a t Hl').
  - destruct (decide (t = T)) as [<-|]; [|done].
    unfold std.any_cast, std.any_cast_ptr. destruct a as [w|]; [|done].
    rewrite decide_False; [done|]. by apply Ha.
  - apply lookup_zip_Some. split; [|done].
    unfold assign_at. simpl. by apply list_lookup_insert_eq.
Qed.

Lemma get_after_mistyped_assignment_witness :
  get ti_int 0 (assign_at 0 (Some (v_string "five")) scenario)
  = Throw bad_any_cast /\
  get ti_string 0 (assign_at 0 (Some (v_string "five")) scenario)
  = Throw bad_any_cast.
Proof.
  split;
    apply (get_after_mistyped_assignment 0 (Some (v_string "five")) ti_int
             scenario);
    try reflexivity; intros w [= <-]; discriminate.
Defined.

(** X10.  Reading a reversed list: [get<T>(i)] on the reversed list is
    [get<T>(size - 1 - i)] on the original one. *)
Theorem get_reverse (T : type_info) (i : nat) (l : List) :
  lockstep l -> i < size l ->
  get T i (reverse l) = get T (size l - 1 - i) l.
Proof.
  intros Hl Hi. destruct (reverse_slots l Hl) as [Hl' Hs]. simpl in Hs.
  unfold size in *. rewrite <- (length_slots l Hl) in *.
  destruct (slots l !! (length (slots l) - 1 - i)) as [[a t]|] eqn:Hp.
  - rewrite (get_slot T _ l a t Hl Hp).
    apply (get_slot T i _ a t Hl'). rewrite Hs, reverse_lookup by done.
    rewrite <- Hp. f_equal. lia.
  - apply lookup_ge_None in Hp. lia.
Qed.

Lemma get_reverse_witness :
  get ti_int 2 (reverse scenario) = get ti_int (size scenario - 1 - 2) scenario.
Proof.
  apply (get_reverse ti_int 2 scenario).
  - reflexivity.
  - unfold size. simpl. lia.
Defined.

(** *** Lists built through the typed interface *)

Lemma run_slots o l :
  lockstep l -> operand_lockstep o -> not_self_extend o ->
  exists l', run o l = Some l' /\ lockstep l' /\
             slots l' = on_slots o (slots l).
Proof.
  intros Hl Ho Hd. destruct o as [x|[other|]|i x|v|index| |]; unfold run.
  - eexists. split; [done|]. by apply append_slots.
  - by apply extend_slots.
  - done.
  - eexists. split; [done|]. by apply insert_slots.
  - eexists. split; [done|]. by apply remove_slots.
  - eexists. split; [done|]. by apply pop_slots.
  - eexists. split; [done|]. split; reflexivity.
  - eexists. split; [done|]. by apply reverse_slots.
Qed.

(** An operation adds no slot but the ones it is given. *)
Lemma on_slots_Forall (P : slot -> Prop) o s :
  Forall P s ->
  (forall x, o = op_append x -> P (arg_any x, arg_typeid x)) ->
  (forall i x, o = op_insert i x -> P (arg_any x, arg_typeid x)) ->
  (forall other, o = op_extend (another other) -> Forall P (slots other)) ->
  not_self_extend o ->
  Forall P (on_slots o s).
Proof.
  intros Hs Ha Hi Ho Hd. destruct o as [x|[other|]|i x|v|[i|]| |]; simpl.
  - apply Forall_app. split; [done|]. apply Forall_singleton. by apply Ha.
  - apply Forall_app. split; [done|]. by apply Ho.
  - done.
  - case_decide; [|done]. apply Forall_app. split; [by apply Forall_take|].
    apply Forall_cons. split; [by eapply Hi|]. by apply Forall_drop.
  - destruct (std.find_if _ s); [by apply Forall_delete|done].
  - by apply Forall_delete.
  - by apply Forall_delete.
  - done.
  - by apply Forall_reverse.
Qed.

Lemma no_empty_slot_slots l :
  lockstep l ->
  no_empty_slot l <-> Forall (fun p : slot => p.1 <> None) (slots l).
Proof.
  intros Hl. unfold no_empty_slot, slots.
  rewrite <- (fst_zip (data l) (types l)) at 1 by (unfold lockstep in Hl; lia).
  by rewrite Forall_fmap.
Qed.

Lemma run_typed o l :
  typed l -> operand_typed o -> exists l', run o l = Some l' /\ typed l'.
Proof.
  intros (Hl & Hc & Hn) Ho.
  assert (operand_lockstep o) as Hol
    by (destruct o as [|[|]| | | | |]; try done; apply Ho).
  assert (not_self_extend o) as Hd by (by destruct o as [|[|]| | | | |]).
  destruct (run_slots o l Hl Hol Hd) as (l' & Hrun & Hl' & Hs).
  exists l'. split; [done|]. split; [done|]. split.
  - unfold consistent. rewrite Hs. apply on_slots_Forall; try done.
    + intros x ->. apply Ho.
    + intros i x ->. apply Ho.
    + intros other ->. apply Ho.
  - apply no_empty_slot_slots; [done|]. rewrite Hs.
    apply on_slots_Forall; try done.
    + by apply no_empty_slot_slots.
    + intros x ->. apply Ho.
    + intros i x ->. apply Ho.
    + intros other ->. destruct Ho as (Hlo & _ & Hno).
      by apply no_empty_slot_slots.
Qed.

(** X11.  Typed lists are closed under the operations with typed operands:
    if every argument of [append] and [insert] is stored as a value whose
    dynamic type is the recorded type (as an [int], [double] or
    [std::string] is; an argument of type [std::any] or a string literal is
    not) and every [extend] is with another list of this kind, then the list
    built from the empty list by any sequence of [append], [extend],
    [insert], [remove], [pop], [clear] and [reverse] is defined, has one
    recorded type per value, stores in every slot a value whose dynamic type
    is the recorded one, and has no empty slot. *)
Theorem built_lists_typed (os : list operation) :
  Forall operand_typed os ->
  exists l, run_all os List_new = Some l /\ typed l.
Proof.
  assert (forall l, typed l -> Forall operand_typed os ->
                    exists l', run_all os l = Some l' /\ typed l') as Hgen.
  { induction os as [|o os IH]; intros l Hl Hos; [by exists l|].
    apply Forall_cons in Hos as [Ho Hos].
    destruct (run_typed o l Hl Ho) as (l1 & Hrun & Hl1).
    destruct (IH l1 Hl1 Hos) as (l' & Hall & Hl').
    exists l'. split; [|done]. unfold run_all in *. simpl. by rewrite Hrun. }
  apply Hgen. repeat split; constructor.
Qed.

Lemma built_lists_typed_witness :
  exists l,
    run_all [op_append (by_value (v_int 5));
             op_insert 0 (by_value (v_string "five"));
             op_reverse; op_pop None] List_new = Some l /\
    typed l.
Proof.
  apply (built_lists_typed [op_append (by_value (v_int 5));
                            op_insert 0 (by_value (v_string "five"));
                            op_reverse; op_pop None]).
  repeat constructor; discriminate.
Defined.

(** *** [remove] and [index] on consistent lists *)

Lemma consistent_dynamic_match v l i a t :
  consistent l -> slots l !! i = Some (a, t) ->
  dynamic_match v a <-> qualified_match v (a, t).
Proof.
  intros Hc Hp. unfold consistent in Hc. rewrite Forall_lookup in Hc.
  specialize (Hc i _ Hp). unfold slot_consistent, qualified_match in *.
  destruct a as [w|]; simpl in *; [|tauto].
  split; [|tauto]. intros [Hw He]. split; [congruence|done].
Qed.

Lemma data_lookup_slot l j a :
  lockstep l -> data l !! j = Some a ->
  exists t, slots l !! j = Some (a, t).
Proof.
  intros Hl Ha.
  assert (j < length (data l)) as Hj by (by eapply lookup_lt_Some).
  exists (types l !!! j). rewrite slots_lookup by done.
  by rewrite (list_lookup_total_correct _ _ _ Ha).
Qed.

(** X12.  On a list whose slots are all consistent, [remove(value)] erases
    exactly the slot that [index(value)] returns, which lowers the count of
    the value by one; when [index(value)] fails, [remove(value)] changes
    nothing. *)
Theorem remove_agrees_with_index (v : value) (l : List) :
  lockstep l -> consistent l ->
  match index v 0 l with
  | Return i =>
      remove v l = mkList (delete i (data l)) (delete i (types l)) /\
      S (count v (remove v l)) = count v l
  | Throw _ => remove v l = l
  end.
Proof.
  intros Hl Hc. destruct (index v 0 l) as [i|e] eqn:Hr.
  - apply index_Return in Hr as (_ & ([a t] & Hp & Hq) & Hfirst); [|done].
    assert (std.find_if (remove_pred v) (data l) = Some i) as Hfind.
    { apply find_if_Some. exists a.
      pose proof Hp as Hp'. apply lookup_zip_Some in Hp' as [Ha _].
      split; [done|]. split.
      - apply remove_pred_spec. by apply (consistent_dynamic_match v l i a t).
      - intros j y Hy Hj Hm. apply remove_pred_spec in Hm.
        destruct (data_lookup_slot l j y Hl Hy) as [t' Hp'].
        apply (Hfirst j (y, t')); [lia|done|].
        by apply (consistent_dynamic_match v l j y t'). }
    assert (remove v l = mkList (delete i (data l)) (delete i (types l)))
      as Hrm by (unfold remove; by rewrite Hfind).
    split; [done|].
    assert (lockstep (remove v l)) as Hl' by apply (remove_slots v l Hl).
    rewrite !count_filter by done. rewrite Hrm. unfold slots at 1. simpl.
    rewrite zip_delete. fold (slots l).
    by apply (filter_delete_matched _ _ _ (a, t)).
  - apply index_Throw in Hr as [_ Hnone]; [|done].
    unfold remove.
    rewrite (proj2 (find_if_None (remove_pred v) (data l))); [done|].
    intros j y Hy Hm. apply remove_pred_spec in Hm.
    destruct (data_lookup_slot l j y Hl Hy) as [t' Hp'].
    apply (Hnone j (y, t')); [lia|done|].
    by apply (consistent_dynamic_match v l j y t').
Qed.

Lemma remove_agrees_with_index_witness :
  remove (v_string "five") scenario
  = mkList (delete 1 (data scenario)) (delete 1 (types scenario)) /\
  S (count (v_string "five") (remove (v_string "five") scenario))
  = count (v_string "five") scenario.
Proof.
  refine (remove_agrees_with_index (v_string "five") scenario _ _).
  - reflexivity.
  - repeat constructor.
Defined.

(** X13.  [index] with a start at or beyond the size fails with
    [std::invalid_argument]; and when [index(value, start)] returns [i],
    so does every search started between [start] and [i]. *)
Theorem index_restart (v : value) (start : nat) (l : List) :
  lockstep l ->
  (size l <= start ->
   index v start l = Throw (invalid_argument "Value not found")) /\
  (forall i start', index v start l = Return i ->
                    start <= start' <= i -> index v start' l = Return i).
Proof.
  intros Hl. split.
  - unfold size, index. intros Hs.
    replace (length (data l) - start) with 0 by lia. done.
  - intros i start' Hr Hs.
    apply index_Return in Hr as (_ & Hq & Hfirst); [|done].
    apply index_first; [done|lia|done|].
    intros j p Hj. apply Hfirst. lia.
Qed.

Lemma index_restart_witness :
  index (v_int 5) 3 scenario = Throw (invalid_argument "Value not found").
Proof.
  apply (index_restart (v_int 5) 3 scenario).
  - reflexivity.
  - unfold size. simpl. lia.
Defined.

(** *** [join] on lists without empty slots, and when it throws *)

Lemma string_app_assoc (a b c : string) : (a +:+ b) +:+ c = a +:+ (b +:+ c).
Proof.
  induction a as [|x a IH]; [done|].
  change (String x ((a +:+ b) +:+ c) = String x (a +:+ (b +:+ c))).
  by rewrite IH.
Qed.

Lemma string_app_nil_r (a : string) : a +:+ "" = a.
Proof.
  induction a as [|x a IH]; [done|].
  change (String x (a +:+ "") = String x a). by rewrite IH.
Qed.

Section Separated.
Context {J : Type} (separator : string) (text : J -> string).

Lemma foldl_separated acc js :
  foldl (fun result j => (result +:+ separator) +:+ text j) acc js
  = acc +:+ foldr (fun j rest => separator +:+ text j +:+ rest) "" js.
Proof.
  revert acc. induction js as [|j js IH]; intros acc; simpl.
  - by rewrite string_app_nil_r.
  - by rewrite IH, !string_app_assoc.
Qed.

Lemma concat_separated x js :
  String.concat separator (x :: map text js)
  = x +:+ foldr (fun j rest => separator +:+ text j +:+ rest) "" js.
Proof.
  revert x. induction js as [|j js IH]; intros x.
  - simpl. by rewrite string_app_nil_r.
  - change (String.concat separator (x :: map text (j :: js)))
      with (x +:+ separator +:+ String.concat separator (text j :: map text js)).
    by rewrite IH.
Qed.

End Separated.

Section Join.
Variable to_string_double : double -> string.
Variable name : type_info -> string.
Variable address : nat -> Z.

Local Abbreviation join_slot := (join_slot to_string_double name address).
Local Abbreviation join_loop := (join_loop to_string_double name address).
Local Abbreviation join := (join to_string_double name address).
Local Abbreviation slot_text := (slot_text to_string_double name address).

Lemma no_empty_slot_lookup l j :
  no_empty_slot l -> data l !! j <> Some None.
Proof.
  unfold no_empty_slot. rewrite Forall_lookup. intros Hn Hj.
  by apply (Hn j None).
Qed.

(** X14.  On a list with no empty slot whose slots recorded as [int],
    [double] or [std::string] store a value of that type, [join(separator)]
    returns the texts of the slots in order with the separator between
    consecutive ones (the empty text for the empty list). *)
Theorem join_texts (separator : string) (l : List) :
  lockstep l -> well_typed l -> no_empty_slot l ->
  join separator l
  = Return (String.concat separator (map (slot_text l) (seq 0 (size l)))).
Proof.
  intros Hl Hwt Hn. unfold easycpp.join, size.
  destruct (length (data l)) as [|n] eqn:Hlen; [done|].
  simpl join_loop. rewrite Hlen, decide_True by lia.
  destruct (data l !! 0) as [[w|]|] eqn:H0.
  - rewrite (list_lookup_total_correct _ _ _ H0). simpl std.has_value. cbv iota.
    rewrite (join_slot_Return _ _ _ l 0 w) by done.
    rewrite (join_loop_no_empty _ _ _ separator l Hl Hwt); [|lia|lia|].
    + rewrite foldl_separated. simpl seq. simpl map.
      rewrite (concat_separated separator (slot_text l)). done.
    + intros j _. by apply no_empty_slot_lookup.
  - by destruct (no_empty_slot_lookup l 0 Hn).
  - apply lookup_ge_None in H0. lia.
Qed.

Lemma join_slot_Return_inv l i w text :
  data l !!! i = Some w -> join_slot l i = Return text ->
  slot_well_typed (data l !!! i, types l !!! i).
Proof.
  intros Hw. unfold easycpp.join_slot, slot_well_typed. rewrite Hw. simpl.
  intros Hr Ht.
  destruct (decide (types l !!! i = ti_int)) as [->|H1];
    [by destruct w|].
  destruct (decide (types l !!! i = ti_double)) as [->|H2];
    [by destruct w|].
  destruct (decide (types l !!! i = ti_string)) as [->|H3];
    [by destruct w|].
  by destruct Ht as [?|[?|?]].
Qed.

Lemma join_slot_Throw l i e : join_slot l i = Throw e -> e = bad_any_cast.
Proof.
  unfold easycpp.join_slot.
  repeat case_decide; try done; destruct (data l !!! i) as [[]|]; simpl;
    congruence.
Qed.

Lemma join_loop_Throw separator l n i result e :
  join_loop separator l n i result = Throw e -> e = bad_any_cast.
Proof.
  revert i result. induction n as [|n IH]; intros i result; simpl; [done|].
  case_decide; [|done].
  destruct (std.has_value (data l !!! i)); [|apply IH].
  destruct (join_slot l i) as [text|e'] eqn:Hs; [apply IH|].
  intros [= <-]. by apply join_slot_Throw in Hs.
Qed.

Lemma join_loop_Return_well_typed separator l n i result s :
  i + n = length (data l) ->
  join_loop separator l n i result = Return s ->
  forall j, i <= j < length (data l) ->
            slot_well_typed (data l !!! j, types l !!! j).
Proof.
  revert i result. induction n as [|n IH]; intros i result Hn; simpl.
  - intros _ j Hj. lia.
  - rewrite decide_True by lia.
    destruct (data l !!! i) as [w|] eqn:Hw; simpl.
    + destruct (join_slot l i) as [text|e] eqn:Hs; [|done].
      intros Hr j Hj. destruct (decide (j = i)) as [->|].
      * by eapply join_slot_Return_inv.
      * eapply IH; [|done|]; lia.
    + intros Hr j Hj. destruct (decide (j = i)) as [->|].
      * unfold slot_well_typed. by rewrite Hw.
      * eapply IH; [|done|]; lia.
Qed.

Lemma join_loop_returns separator l :
  lockstep l -> well_typed l ->
  forall n i result, exists s, join_loop separator l n i result = Return s.
Proof.
  intros Hl Hwt. induction n as [|n IH]; intros i result; simpl; [by eexists|].
  case_decide as Hi; [|by eexists].
  destruct (data l !! i) as [[w|]|] eqn:Hw.
  - rewrite (list_lookup_total_correct _ _ _ Hw). simpl.
    rewrite (join_slot_Return _ _ _ l i w) by done. apply IH.
  - rewrite (list_lookup_total_correct _ _ _ Hw). simpl. apply IH.
  - apply lookup_ge_None in Hw. lia.
Qed.

(** X15.  [join] returns a text exactly on the lists whose slots recorded
    as [int], [double] or [std::string] store a value of that type (or no
    value); on every other list it throws [std::bad_any_cast]. *)
Theorem join_throws_iff_mistyped (separator : string) (l : List) :
  lockstep l ->
  (well_typed l <-> exists s, join separator l = Return s) /\
  (~ well_typed l -> join separator l = Throw bad_any_cast).
Proof.
  intros Hl.
  assert (forall s, join separator l = Return s -> well_typed l) as Hret.
  { intros s Hs. unfold well_typed. apply Forall_lookup. intros j p Hp.
    assert (j < length (data l)) as Hj.
    { rewrite <- length_slots by done. by eapply lookup_lt_Some. }
    rewrite slots_lookup in Hp by done. injection Hp as <-.
    eapply (join_loop_Return_well_typed separator l _ 0 "" s); [|done|lia].
    done. }
  split.
  - split; [|by intros [s Hs]; eapply Hret].
    intros Hwt. by apply join_loop_returns.
  - intros Hnot. destruct (join separator l) as [s|e] eqn:Hj.
    + destruct Hnot. by eapply Hret.
    + by apply join_loop_Throw in Hj as ->.
Qed.

End Join.

Lemma join_texts_witness :
  join (fun _ => "5.000000") (fun _ => "") (fun _ => 0%Z) "," scenario
  = Return "5,five,5.000000".
Proof.
  refine (join_texts (fun _ => "5.000000") (fun _ => "") (fun _ => 0%Z) ","
            scenario _ _ _).
  - reflexivity.
  - repeat constructor; intros _; reflexivity.
  - repeat constructor; discriminate.
Defined.

Lemma join_throws_iff_mistyped_witness :
  join (fun _ => "") (fun _ => "") (fun _ => 0%Z) ","
       (assign_at 0 (Some (v_string "five")) scenario)
  = Throw bad_any_cast.
Proof.
  refine (proj2 (join_throws_iff_mistyped (fun _ => "") (fun _ => "")
                   (fun _ => 0%Z) ","
                   (assign_at 0 (Some (v_string "five")) scenario) _) _).
  - reflexivity.
  - intros H. inversion H as [|p ps Hp _]. simpl in Hp.
    specialize (Hp (or_introl eq_refl)). discriminate Hp.
Defined.

(** *** [operator<<] *)

Section Output.
Variable show_int : Z -> string.
Variable show_double : double -> string.
Variable name : type_info -> string.
Variable show_pointer : nat -> string.

Local Abbreviation output_slot :=
  (output_slot show_int show_double name show_pointer).
Local Abbreviation output_loop :=
  (output_loop show_int show_double name show_pointer).
Local Abbreviation output :=
  (output show_int show_double name show_pointer).
Local Abbreviation shown_text :=
  (shown_text show_int show_double name show_pointer).

Lemma output_slot_Return l i w :
  lockstep l -> well_typed l -> data l !! i = Some (Some w) ->
  output_slot l i = Return (shown_text l i).
Proof.
  intros Hl Hwt Hw.
  assert (i < length (data l)) as Hi by (by eapply lookup_lt_Some).
  unfold well_typed in Hwt. rewrite Forall_lookup in Hwt.
  specialize (Hwt i _ (slots_lookup l i Hl Hi)).
  unfold List_spec.shown_text, easycpp.output_slot in *.
  rewrite (list_lookup_total_correct _ _ _ Hw) in *.
  unfold slot_well_typed in Hwt. simpl in *.
  destruct (decide (types l !!! i = ti_int)) as [Ht|_].
  { rewrite Ht in Hwt. specialize (Hwt (or_introl eq_refl)).
    by destruct w. }
  destruct (decide (types l !!! i = ti_double)) as [Ht|_].
  { rewrite Ht in Hwt. specialize (Hwt (or_intror (or_introl eq_refl))).
    by destruct w. }
  destruct (decide (types l !!! i = ti_string)) as [Ht|_]; [|done].
  rewrite Ht in Hwt. specialize (Hwt (or_intror (or_intror eq_refl))).
  by destruct w.
Qed.

Lemma output_loop_step l i n os :
  lockstep l -> well_typed l -> i < length (data l) ->
  output_loop l (S n) i os
  = output_loop l n (S i)
      ((if decide (0 < i) then os +:+ ", " else os) +:+ shown_text l i).
Proof.
  intros Hl Hwt Hi. simpl. rewrite decide_True by done.
  destruct (data l !! i) as [[w|]|] eqn:Hw.
  - rewrite (output_slot_Return l i w) by done.
    unfold List_spec.shown_text.
    by rewrite (list_lookup_total_correct _ _ _ Hw).
  - unfold List_spec.shown_text.
    by rewrite (list_lookup_total_correct _ _ _ Hw).
  - apply lookup_ge_None in Hw. lia.
Qed.

Lemma output_loop_rest l :
  lockstep l -> well_typed l ->
  forall n i os,
    i + n = length (data l) -> 0 < i ->
    output_loop l n i os
    = (Return tt,
       foldl (fun os j => (os +:+ ", ") +:+ shown_text l j) os (seq i n)).
Proof.
  intros Hl Hwt. induction n as [|n IH]; intros i os Hn Hpos; [done|].
  rewrite output_loop_step by (done || lia).
  rewrite decide_True by done. rewrite IH by lia. done.
Qed.

(** X16.  On a list whose slots recorded as [int], [double] or
    [std::string] store a value of that type, [os << list] appends to the
    stream an opening bracket, the texts of the slots in order separated by
    a comma and a space, and a closing bracket.  An empty slot contributes
    the empty text between its separators and, unlike in [join], does not
    discard what was written before it. *)
Theorem output_texts (os : string) (l : List) :
  lockstep l -> well_typed l ->
  output os l
  = (Return tt,
     (os +:+ "[")
     +:+ String.concat ", " (map (shown_text l) (seq 0 (size l)))
     +:+ "]").
Proof.
  intros Hl Hwt. unfold easycpp.output, size.
  destruct (length (data l)) as [|n] eqn:Hlen.
  - reflexivity.
  - rewrite output_loop_step by (done || lia).
    rewrite decide_False by lia.
    rewrite output_loop_rest by (done || lia).
    rewrite foldl_separated. simpl seq. simpl map.
    rewrite (concat_separated ", " (shown_text l)).
    by rewrite !string_app_assoc.
Qed.

End Output.

Lemma output_texts_witness :
  output (fun _ => "5") (fun _ => "5") (fun _ => "") (fun _ => "") ""
         (mkList [Some (v_int 5); None; Some (v_double five_point_zero)]
                 [ti_int; ti_int; ti_double])
  = (Return tt, "[5, , 5]").
Proof.
  refine (output_texts (fun _ => "5") (fun _ => "5") (fun _ => "")
            (fun _ => "") ""
            (mkList [Some (v_int 5); None; Some (v_double five_point_zero)]
                    [ti_int; ti_int; ti_double]) _ _).
  - reflexivity.
  - repeat constructor; intros _; reflexivity.
Defined.

(** *** Failures of [pop], and [index] after [append] *)

(** X20.  [pop] fails exactly when it is called without an index on an
    empty list or with an index at or beyond the size; a failing [pop]
    throws [std::out_of_range] and leaves the list unchanged, and a [pop]
    that returns makes the list one slot shorter. *)
Theorem pop_fails_iff (index : option nat) (l : List) :
  let fails :=
    match index with
    | None => size l = 0
    | Some i => size l <= i
    end in
  (fails ->
   exists what, pop index l = (Throw (out_of_range what), l)) /\
  (~ fails ->
   exists a, (pop index l).1 = Return a /\ S (size (pop index l).2) = size l).
Proof.
  unfold size, pop, empty. destruct index as [i|]; simpl.
  - split.
    + intros Hi. rewrite decide_False by lia. by eexists.
    + intros Hi. rewrite decide_True by lia. eexists. split; [done|]. simpl.
      rewrite length_delete_lt by lia. lia.
  - split.
    + intros Hz. apply nil_length_inv in Hz.
      rewrite bool_decide_eq_true_2 by done. by eexists.
    + intros Hz.
      rewrite bool_decide_eq_false_2 by (intros Hd; by rewrite Hd in Hz).
      rewrite decide_True by lia. eexists. split; [done|]. simpl.
      rewrite length_delete_lt by lia. lia.
Qed.

Lemma pop_fails_iff_witness :
  (exists what, pop (Some 3) scenario = (Throw (out_of_range what), scenario))
  /\ (exists a, (pop None scenario).1 = Return a /\
                 S (size (pop None scenario).2) = size scenario).
Proof.
  split.
  - apply (pop_fails_iff (Some 3) scenario). unfold size. simpl. lia.
  - apply (pop_fails_iff None scenario). unfold size. simpl. lia.
Defined.



End List_more.

(** ** Further properties of [open] *)

Module FileOperator_more.
Import FileOperator FileOperator_proofs.

Section Native.
Variable world : Type.
Variable FILE : Type.
Variable access : world -> string -> Z -> Z.
Variable fopen_s : world -> string -> string -> Z * FILE * world.

Local Abbreviation open := (open world FILE access fopen_s).

Lemma open_unchecked w calls name method :
  ~ (method = READ \/ method = READ_E) ->
  open name method (w, calls)
  = (if ((fopen_s w name method).1.1 =? 0)%Z
     then Return (mkFile FILE (fopen_s w name method).1.2 name)
     else Throw (FileUnknownError name),
     ((fopen_s w name method).2, calls ++ [call_fopen_s name method])).
Proof.
  intros Hno. unfold FileOperator.open, mbind, M_bind, bind.
  destruct ((strcmp method READ =? 0)%Z || (strcmp method READ_E =? 0)%Z)
    eqn:Hread; [by apply read_oriented_test in Hread|].
  unfold native_fopen_s, ret, throw. simpl.
  by destruct ((fopen_s w name method).1.1 =? 0)%Z.
Qed.

Lemma open_checked w calls name method :
  method = READ \/ method = READ_E ->
  access w name F_OK = 0%Z -> access w name (Z.lor R_OK W_OK) = 0%Z ->
  open name method (w, calls)
  = (if ((fopen_s w name method).1.1 =? 0)%Z
     then Return (mkFile FILE (fopen_s w name method).1.2 name)
     else Throw (FileUnknownError name),
     ((fopen_s w name method).2,
      calls ++ [call_access name F_OK; call_access name (Z.lor R_OK W_OK);
                call_fopen_s name method])).
Proof.
  intros Hread Hex Hperm. apply read_oriented_test in Hread.
  unfold FileOperator.open, mbind, M_bind, bind. rewrite Hread.
  unfold is_exist, check_permission, mbind, M_bind, bind, native_access,
    native_fopen_s, ret, throw. simpl.
  rewrite Hex. simpl. rewrite Hperm. simpl.
  rewrite <- !app_assoc. simpl.
  by destruct ((fopen_s w name method).1.1 =? 0)%Z.
Qed.

(** X17.  [open] succeeds when the checks made for the mode pass (none for
    a mode other than [READ] and [READ_E]) and the native open call returns
    zero: it then returns a [File] that holds the handle stored by the native
    call and the name it was given, and the native open call is the last
    call made. *)
Theorem open_succeeds (w : world) (calls : list native_call)
    (name method : string) :
  ~ (method = READ \/ method = READ_E) \/
    (access w name F_OK = 0%Z /\ access w name (Z.lor R_OK W_OK) = 0%Z) ->
  (fopen_s w name method).1.1 = 0%Z ->
  exists checks,
    open name method (w, calls)
    = (Return (mkFile FILE (fopen_s w name method).1.2 name),
       ((fopen_s w name method).2,
        calls ++ checks ++ [call_fopen_s name method])) /\
    opened checks = false.
Proof.
  intros Hpre Hok.
  destruct (decide (method = READ \/ method = READ_E)) as [Hread|Hno].
  - destruct Hpre as [?|[Hex Hperm]]; [done|].
    exists [call_access name F_OK; call_access name (Z.lor R_OK W_OK)].
    split; [|done]. rewrite open_checked by done. by rewrite Hok.
  - exists []. split; [|done]. rewrite open_unchecked by done.
    by rewrite Hok.
Qed.

(** X18.  With a mode other than [READ] and [READ_E], [open] makes no
    existence or permission check: its only native call is the open call
    itself, also on a path that does not exist. *)
Theorem open_unchecked_modes (w : world) (calls : list native_call)
    (name method : string) :
  ~ (method = READ \/ method = READ_E) ->
  (open name method (w, calls)).2.2 = calls ++ [call_fopen_s name method] /\
  (open name method (w, calls)).2.1 = (fopen_s w name method).2 /\
  forall msg, (open name method (w, calls)).1 <> Throw (FileNotExistError msg)
              /\ forall permission,
                   (open name method (w, calls)).1
                   <> Throw (FilePermissionError msg permission).
Proof.
  intros Hno. rewrite open_unchecked by done. simpl.
  split; [done|]. split; [done|].
  intros msg. by destruct ((fopen_s w name method).1.1 =? 0)%Z.
Qed.

Lemma open_missing w calls name method :
  method = READ \/ method = READ_E -> access w name F_OK <> 0%Z ->
  open name method (w, calls)
  = (Throw (FileNotExistError name), (w, calls ++ [call_access name F_OK])).
Proof.
  intros Hread Hmiss. apply read_oriented_test in Hread.
  unfold FileOperator.open, mbind, M_bind, bind. rewrite Hread.
  unfold is_exist, mbind, M_bind, bind, native_access, ret. simpl.
  apply Z.eqb_neq in Hmiss. by rewrite Hmiss.
Qed.

Lemma open_denied w calls name method :
  method = READ \/ method = READ_E ->
  access w name F_OK = 0%Z -> access w name (Z.lor R_OK W_OK) <> 0%Z ->
  open name method (w, calls)
  = (Throw (FilePermissionError name FILE_NOT_PERMISSION),
     (w, calls ++ [call_access name F_OK;
                   call_access name (Z.lor R_OK W_OK)])).
Proof.
  intros Hread Hex Hperm. apply read_oriented_test in Hread.
  unfold FileOperator.open, mbind, M_bind, bind. rewrite Hread.
  unfold is_exist, check_permission, mbind, M_bind, bind, native_access,
    ret. simpl.
  rewrite Hex. simpl. apply Z.eqb_neq in Hperm. rewrite Hperm. simpl.
  by rewrite <- app_assoc.
Qed.

(** X19.  Whatever the file system answers, [open] either returns a
    [File] carrying the name it was given, or throws one of
    [FileNotExistError], [FilePermissionError] (with the text
    "have permission") and [FileUnknownError], each carrying that name; and
    it makes the native open call at most once, as its last native call. *)
Theorem open_outcomes (w : world) (name method : string) :
  match (open name method (w, [])).1 with
  | Return f => filename FILE f = name
  | Throw e =>
      e = FileNotExistError name \/
      e = FilePermissionError name FILE_NOT_PERMISSION \/
      e = FileUnknownError name
  end /\
  exists checks,
    opened checks = false /\
    ((open name method (w, [])).2.2 = checks \/
     (open name method (w, [])).2.2 = checks ++ [call_fopen_s name method]).
Proof.
  destruct (decide (method = READ \/ method = READ_E)) as [Hread|Hno].
  - destruct (decide (access w name F_OK = 0%Z)) as [Hex|Hmiss].
    + destruct (decide (access w name (Z.lor R_OK W_OK) = 0%Z))
        as [Hperm|Hden].
      * rewrite open_checked by done. simpl.
        split; [by destruct ((fopen_s w name method).1.1 =? 0)%Z; auto|].
        exists [call_access name F_OK; call_access name (Z.lor R_OK W_OK)].
        split; [done|]. by right.
      * rewrite open_denied by done. simpl. split; [auto|].
        exists [call_access name F_OK; call_access name (Z.lor R_OK W_OK)].
        split; [done|]. by left.
    + rewrite open_missing by done. simpl. split; [auto|].
      exists [call_access name F_OK]. split; [done|]. by left.
  - rewrite open_unchecked by done. simpl.
    split; [by destruct ((fopen_s w name method).1.1 =? 0)%Z; auto|].
    exists []. split; [done|]. by right.
Qed.

End Native.

Lemma open_succeeds_witness :
  exists checks,
    open unit nat permissive_access permissive_fopen_s "notes.txt" READ
         (tt, [])
    = (Return (mkFile nat 3 "notes.txt"),
       (tt, [] ++ checks ++ [call_fopen_s "notes.txt" READ])) /\
    opened checks = false.
Proof.
  apply (open_succeeds unit nat permissive_access permissive_fopen_s tt []
           "notes.txt" READ).
  - right. split; reflexivity.
  - reflexivity.
Defined.

Lemma open_unchecked_modes_witness :
  (open unit nat scenario_access permissive_fopen_s "missing.txt" WRITE
     (tt, [])).2.2
  = [call_fopen_s "missing.txt" WRITE].
Proof.
  apply (open_unchecked_modes unit nat scenario_access permissive_fopen_s
           tt [] "missing.txt" WRITE).
  intros [H|H]; discriminate H.
Defined.

End FileOperator_more.

(** ** Properties of [String] *)

Module String_proofs.
Import libc easycpp_String.

(** *** The C library functions *)

Lemma strcmp_zero_iff a b : strcmp a b = 0%Z <-> a = b.
Proof.
  revert b. induction a as [|x a IH]; intros [|y b]; simpl; try done.
  destruct (decide (x = y)) as [->|Hne].
  - rewrite IH. split; [by intros ->|by intros [= ->]].
  - split; [by destruct (N_of_ascii x <? N_of_ascii y)%N|].
    by intros [= ? _].
Qed.

Lemma strstr_Some hay needle i :
  strstr hay needle = Some i ->
  i <= strlen hay /\ needle `prefix_of` drop i hay /\
  forall j, j < i -> ~ needle `prefix_of` drop j hay.
Proof.
  unfold strlen. revert i. induction hay as [|x hay IH]; intros i; simpl.
  - case_decide as Hp; [|done]. intros [= <-].
    split; [done|]. split; [done|]. intros j Hj. lia.
  - case_decide as Hp.
    + intros [= <-]. split; [lia|]. split; [done|]. intros j Hj. lia.
    + destruct (strstr hay needle) as [k|] eqn:Hk; [|done].
      intros [= <-]. destruct (IH k eq_refl) as (Hle & Hpre & Hfirst).
      split; [lia|]. split; [done|].
      intros [|j] Hj; [done|]. apply Hfirst. lia.
Qed.

Lemma strstr_None hay needle :
  strstr hay needle = None -> forall j, ~ needle `prefix_of` drop j hay.
Proof.
  induction hay as [|x hay IH]; simpl.
  - case_decide as Hp; [done|]. intros _ j. by rewrite drop_nil.
  - case_decide as Hp; [done|].
    destruct (strstr hay needle) as [k|] eqn:Hk; [done|].
    intros _ [|j]; [done|]. by apply IH.
Qed.

Lemma convert_loop_fmap convert pre post :
  convert_loop convert (strlen pre + strlen post) (strlen post)
    (strlen pre) (pre ++ post)
  = pre ++ (convert <$> post).
Proof.
  unfold strlen. revert pre. induction post as [|x post IH]; intros pre;
    [done|].
  simpl. rewrite decide_True by lia.
  rewrite (list_lookup_total_middle pre post x) by done.
  rewrite insert_app_r_alt by done. rewrite Nat.sub_diag. simpl.
  replace (Datatypes.length pre + S (Datatypes.length post))
    with (Datatypes.length (pre ++ [convert x]) + Datatypes.length post)
    by (rewrite length_app; simpl; lia).
  replace (S (Datatypes.length pre))
    with (Datatypes.length (pre ++ [convert x]))
    by (rewrite length_app; simpl; lia).
  replace (pre ++ convert x :: post) with ((pre ++ [convert x]) ++ post)
    by (by rewrite <- app_assoc).
  rewrite IH. by rewrite <- app_assoc.
Qed.

Lemma to_int_small (n : nat) :
  (Z.of_nat n < 2 ^ 31)%Z -> to_int (Z.of_nat n) = Z.of_nat n.
Proof.
  intros Hn. unfold to_int.
  rewrite Z.mod_small; lia.
Qed.

Lemma toupper_not_zero c : c <> zero -> toupper c <> zero.
Proof.
  destruct c as [[] [] [] [] [] [] [] []]; vm_compute; congruence.
Qed.

Lemma tolower_not_zero c : c <> zero -> tolower c <> zero.
Proof.
  destruct c as [[] [] [] [] [] [] [] []]; vm_compute; congruence.
Qed.

Lemma toupper_idemp c : toupper (toupper c) = toupper c.
Proof. by destruct c as [[] [] [] [] [] [] [] []]. Qed.

Lemma tolower_toupper c : tolower (toupper c) = tolower c.
Proof. by destruct c as [[] [] [] [] [] [] [] []]. Qed.

(** *** The methods on well-formed objects *)

Lemma wf_chars s :
  wf s ->
  data s = Some (chars s) /\ length s = strlen (chars s) /\
  Forall (fun x => x <> zero) (chars s).
Proof. intros (c & Hd & Hl & Hz). unfold chars. by rewrite Hd. Qed.

Lemma wf_String_of c :
  Forall (fun x => x <> zero) c -> wf (String_of (Some c)).
Proof. intros Hz. by exists c. Qed.

Lemma copy_wf s : wf s -> copy s = Some s.
Proof.
  intros (c & Hd & Hl & _). unfold copy. rewrite Hd. simpl.
  rewrite decide_True by lia. destruct s. simpl in *. by rewrite Hd.
Qed.

Lemma convert_chars convert s :
  wf s ->
  convert_loop convert (length s) (length s) 0 (chars s)
  = convert <$> chars s.
Proof.
  intros Hs. destruct (wf_chars s Hs) as (_ & -> & _).
  apply (convert_loop_fmap convert [] (chars s)).
Qed.

Lemma upper_chars s :
  wf s -> upper s = Some (mkString (Some (toupper <$> chars s)) (length s)).
Proof.
  intros Hs. unfold upper. rewrite copy_wf by done. simpl.
  destruct (wf_chars s Hs) as (Hd & _ & _). rewrite Hd. simpl.
  by rewrite convert_chars.
Qed.

Lemma lower_chars s :
  wf s -> lower s = Some (mkString (Some (tolower <$> chars s)) (length s)).
Proof.
  intros Hs. unfold lower. rewrite copy_wf by done. simpl.
  destruct (wf_chars s Hs) as (Hd & _ & _). rewrite Hd. simpl.
  by rewrite convert_chars.
Qed.

Lemma wf_converted convert s :
  (forall c, c <> zero -> convert c <> zero) -> wf s ->
  wf (mkString (Some (convert <$> chars s)) (length s)).
Proof.
  intros Hc Hs. destruct (wf_chars s Hs) as (_ & Hl & Hz).
  exists (convert <$> chars s). split; [done|]. split.
  - simpl. unfold strlen in *. by rewrite length_fmap.
  - apply Forall_fmap. eapply Forall_impl; [done|]. intros c. apply Hc.
Qed.

Lemma startswith_chars prefix s :
  wf s -> wf prefix ->
  startswith prefix s = Some (bool_decide (chars prefix `prefix_of` chars s)).
Proof.
  intros Hs Hp. destruct (wf_chars s Hs) as (Hd & Hl & _).
  destruct (wf_chars prefix Hp) as (Hpd & Hpl & _).
  unfold startswith, strncmp. rewrite Hl, Hpl. unfold strlen.
  case_decide as Hlen.
  - rewrite bool_decide_eq_false_2; [done|].
    intros Hpre. apply prefix_length in Hpre. lia.
  - rewrite Hd, Hpd. simpl. f_equal. rewrite firstn_all.
    destruct (decide (chars prefix `prefix_of` chars s)) as [Hpre|Hpre].
    + rewrite bool_decide_eq_true_2 by done. apply Z.eqb_eq.
      apply strcmp_zero_iff. destruct Hpre as [k ->].
      by rewrite take_app_length.
    + rewrite bool_decide_eq_false_2 by done. apply Z.eqb_neq.
      rewrite strcmp_zero_iff. intros Heq. apply Hpre. rewrite <- Heq.
      apply prefix_take.
Qed.

Lemma endswith_chars suffix s :
  wf s -> wf suffix ->
  endswith suffix s = Some (bool_decide (chars suffix `suffix_of` chars s)).
Proof.
  intros Hs Hp. destruct (wf_chars s Hs) as (Hd & Hl & _).
  destruct (wf_chars suffix Hp) as (Hpd & Hpl & _).
  unfold endswith. rewrite Hl, Hpl. unfold strlen.
  case_decide as Hlen.
  - rewrite bool_decide_eq_false_2; [done|].
    intros Hsuf. apply suffix_length in Hsuf. lia.
  - rewrite Hd, Hpd. simpl. f_equal.
    destruct (decide (chars suffix `suffix_of` chars s)) as [Hsuf|Hsuf].
    + rewrite bool_decide_eq_true_2 by done. apply Z.eqb_eq.
      apply strcmp_zero_iff. destruct Hsuf as [k ->].
      rewrite length_app.
      replace (Datatypes.length k + Datatypes.length (chars suffix)
               - Datatypes.length (chars suffix))
        with (Datatypes.length k) by lia.
      by rewrite drop_app_length.
    + rewrite bool_decide_eq_false_2 by done. apply Z.eqb_neq.
      rewrite strcmp_zero_iff. intros Heq. apply Hsuf. rewrite <- Heq.
      apply suffix_drop.
Qed.

Lemma concat_wf other s :
  wf s -> wf other ->
  concat other s = Some (String_of (Some (chars s ++ chars other))) /\
  wf (String_of (Some (chars s ++ chars other))).
Proof.
  intros Hs Ho. destruct (wf_chars s Hs) as (Hd & Hl & Hz).
  destruct (wf_chars other Ho) as (Hod & Hol & Hoz).
  split.
  - unfold concat. rewrite Hd, Hod. simpl. rewrite decide_True by lia. done.
  - apply wf_String_of. by apply Forall_app.
Qed.

(** X22.  [a + b] on two well-formed strings is a well-formed string
    whose characters are those of [a] followed by those of [b] and whose
    length is the sum of the two lengths; [a + p] for a C string [p] gives
    the same result as [a + String(p)]. *)
Theorem concat_chars_length (a b : String_t) :
  wf a -> wf b ->
  exists r,
    concat b a = Some r /\ wf r /\
    chars r = chars a ++ chars b /\ len r = len a + len b /\
    concat_chars (Some (chars b)) a = Some r.
Proof.
  intros Ha Hb. destruct (concat_wf b a Ha Hb) as [Hc Hwf].
  destruct (wf_chars a Ha) as (Hd & Hl & _).
  destruct (wf_chars b Hb) as (_ & Hbl & _).
  exists (String_of (Some (chars a ++ chars b))).
  split; [done|]. split; [done|]. split; [done|]. split.
  - unfold len. simpl. unfold strlen in *. rewrite length_app. lia.
  - unfold concat_chars. simpl. rewrite Hd. simpl.
    by rewrite decide_True by lia.
Qed.

Lemma wf_hello : wf hello.
Proof. apply wf_String_of. repeat constructor; discriminate. Defined.

Lemma wf_he : wf he.
Proof. apply wf_String_of. repeat constructor; discriminate. Defined.

Lemma wf_llo : wf llo.
Proof. apply wf_String_of. repeat constructor; discriminate. Defined.

Lemma wf_Hello : wf Hello.
Proof. apply wf_String_of. repeat constructor; discriminate. Defined.

Lemma concat_chars_length_witness :
  exists r,
    concat llo he = Some r /\ wf r /\
    chars r = chars he ++ chars llo /\ len r = len he + len llo /\
    concat_chars (Some (chars llo)) he = Some r.
Proof. apply (concat_chars_length he llo wf_he wf_llo). Defined.

(** X23.  On well-formed strings, [s.startswith(prefix)] is true exactly
    when the characters of [prefix] are an initial segment of those of [s]
    (so always for the empty prefix, never for a longer one). *)
Theorem startswith_iff_prefix (prefix s : String_t) :
  wf s -> wf prefix ->
  exists b, startswith prefix s = Some b /\
            (b = true <-> chars prefix `prefix_of` chars s).
Proof.
  intros Hs Hp. eexists. split; [by apply startswith_chars|].
  apply bool_decide_eq_true.
Qed.

Lemma startswith_iff_prefix_witness :
  exists b, startswith he hello = Some b /\
            (b = true <-> chars he `prefix_of` chars hello).
Proof. apply (startswith_iff_prefix he hello wf_hello wf_he). Defined.

(** X24.  On well-formed strings, [s.endswith(suffix)] is true exactly
    when the characters of [suffix] are a final segment of those of [s]. *)
Theorem endswith_iff_suffix (suffix s : String_t) :
  wf s -> wf suffix ->
  exists b, endswith suffix s = Some b /\
            (b = true <-> chars suffix `suffix_of` chars s).
Proof.
  intros Hs Hp. eexists. split; [by apply endswith_chars|].
  apply bool_decide_eq_true.
Qed.

Lemma endswith_iff_suffix_witness :
  exists b, endswith llo hello = Some b /\
            (b = true <-> chars llo `suffix_of` chars hello).
Proof. apply (endswith_iff_suffix llo hello wf_hello wf_llo). Defined.

(** X25.  On well-formed strings shorter than 2^31 characters,
    [s.find(sub)] returns -1 exactly when [sub] occurs nowhere in [s], and
    otherwise the offset of the first occurrence of [sub] in [s] (0 for the
    empty [sub]). *)
Theorem find_first_occurrence (sub s : String_t) :
  wf s -> wf sub -> (Z.of_nat (len s) < 2 ^ 31)%Z ->
  exists z,
    find sub s = Some z /\
    (z = (-1)%Z <-> forall j, ~ chars sub `prefix_of` drop j (chars s)) /\
    (z <> (-1)%Z ->
     exists i, z = Z.of_nat i /\ i <= len s /\
               chars sub `prefix_of` drop i (chars s) /\
               forall j, j < i -> ~ chars sub `prefix_of` drop j (chars s)).
Proof.
  intros Hs Hp Hlen. destruct (wf_chars s Hs) as (Hd & Hl & _).
  destruct (wf_chars sub Hp) as (Hpd & _ & _).
  unfold find, len in *. rewrite Hd, Hpd. simpl.
  destruct (strstr (chars s) (chars sub)) as [i|] eqn:Hf.
  - apply strstr_Some in Hf as (Hi & Hpre & Hfirst).
    rewrite to_int_small by lia.
    exists (Z.of_nat i). split; [done|]. split.
    + split; [lia|]. intros Hno. by destruct (Hno i).
    + intros _. exists i. rewrite Hl. done.
  - exists (-1)%Z. split; [done|]. split; [|done].
    split; [|done]. intros _. by apply strstr_None.
Qed.

Lemma find_first_occurrence_witness :
  exists z,
    find llo hello = Some z /\
    (z = (-1)%Z <-> forall j, ~ chars llo `prefix_of` drop j (chars hello)) /\
    (z <> (-1)%Z ->
     exists i, z = Z.of_nat i /\ i <= len hello /\
               chars llo `prefix_of` drop i (chars hello) /\
               forall j, j < i ->
                         ~ chars llo `prefix_of` drop j (chars hello)).
Proof.
  apply (find_first_occurrence llo hello wf_hello wf_llo). reflexivity.
Defined.

(** X26.  [upper()] and [lower()] on a well-formed string return a
    well-formed string of the same length in which every character is
    converted; [upper()] of the result of [upper()] is that result again,
    and [lower()] after [upper()] is [lower()] alone. *)
Theorem upper_lower (s : String_t) :
  wf s ->
  exists u l,
    upper s = Some u /\ lower s = Some l /\ wf u /\ wf l /\
    len u = len s /\ len l = len s /\
    chars u = toupper <$> chars s /\ chars l = tolower <$> chars s /\
    upper u = Some u /\ lower u = Some l.
Proof.
  intros Hs.
  pose proof (wf_converted toupper s toupper_not_zero Hs) as Hu.
  pose proof (wf_converted tolower s tolower_not_zero Hs) as Hlw.
  exists (mkString (Some (toupper <$> chars s)) (length s)),
         (mkString (Some (tolower <$> chars s)) (length s)).
  split; [by apply upper_chars|]. split; [by apply lower_chars|].
  split; [done|]. split; [done|].
  split; [done|]. split; [done|]. split; [done|]. split; [done|]. split.
  - rewrite upper_chars by done. unfold chars. simpl.
    rewrite <- list_fmap_compose. do 3 f_equal.
    apply list_fmap_ext. intros i c _. apply toupper_idemp.
  - rewrite lower_chars by done. unfold chars at 1. simpl.
    rewrite <- list_fmap_compose. do 3 f_equal.
    apply list_fmap_ext. intros i c _. apply tolower_toupper.
Qed.

Lemma upper_lower_witness :
  exists u l,
    upper Hello = Some u /\ lower Hello = Some l /\ wf u /\ wf l /\
    len u = len Hello /\ len l = len Hello /\
    chars u = toupper <$> chars Hello /\ chars l = tolower <$> chars Hello /\
    upper u = Some u /\ lower u = Some l.
Proof. apply (upper_lower Hello wf_Hello). Defined.

(** X27.  The concatenation [a + b] of two well-formed strings starts
    with [a] and ends with [b], and [find(a)] on it returns 0. *)
Theorem concat_starts_ends (a b : String_t) :
  wf a -> wf b ->
  exists r,
    concat b a = Some r /\
    startswith a r = Some true /\ endswith b r = Some true /\
    find a r = Some 0%Z.
Proof.
  intros Ha Hb. destruct (concat_wf b a Ha Hb) as [Hc Hwf].
  exists (String_of (Some (chars a ++ chars b))). split; [done|].
  split; [|split].
  - rewrite startswith_chars by done.
    rewrite bool_decide_eq_true_2; [done|]. by apply prefix_app_r.
  - rewrite endswith_chars by done.
    rewrite bool_decide_eq_true_2; [done|]. by apply suffix_app_r.
  - destruct (wf_chars a Ha) as (Hd & _ & _).
    unfold find. rewrite Hd. simpl.
    destruct (chars a ++ chars b) as [|x k] eqn:Hk; simpl.
    + rewrite decide_True; [done|].
      apply app_eq_nil in Hk as [-> _]. done.
    + rewrite decide_True; [done|]. rewrite <- Hk. by apply prefix_app_r.
Qed.

Lemma concat_starts_ends_witness :
  exists r,
    concat llo he = Some r /\
    startswith he r = Some true /\ endswith llo r = Some true /\
    find he r = Some 0%Z.
Proof. apply (concat_starts_ends he llo wf_he wf_llo). Defined.

End String_proofs.
